(** * Page interaction controller of the portfolio site (script.js)

    A shallow embedding of the event handlers of [script.js] and the proofs of
    the properties its specification states about them.

    The DOM is modelled by the parts of it the script reads and writes:
    - an attribute read with [getAttribute] is an [option string]
      ([None] is JavaScript's [null], the attribute being absent);
    - a [classList] is the ordered list of its tokens;
    - pixel quantities that the DOM exposes as integers ([offsetTop],
      [clientHeight], [offsetHeight], [innerWidth]) and the scroll offset
      are in [Z]; the rectangles of [getBoundingClientRect] and the factor
      [0.8] are binary64 numbers, as in JavaScript;
    - timers are entries of a table kept by the event loop, with the
      handle that [setTimeout] returns.

    The elements the script looks up once at load time ([menuToggle],
    [navLinksContainer], the body) exist in the documents modelled here;
    the navbar and the target of an anchor may be missing. *)

From Stdlib Require Import Floats.PrimFloat.
From stdpp Require Import base list strings.
From Stdlib Require Import ZArith Lia DecimalString.

Local Open Scope string_scope.
Local Open Scope Z_scope.
Local Open Scope list_scope.

(** * Part I: the embedding *)

(** ** JavaScript values read from the DOM *)

(** [String(v)] for a value that is a string or [null], as a template
    literal converts it. *)
Definition js_to_string (v : option string) : string :=
  match v with
  | Some s => s
  | None => "null"
  end.

(** [a === b] where [a] is a string or [null] and [b] is a string. *)
Definition strict_eq (a : option string) (b : string) : bool :=
  match a with
  | Some s => String.eqb s b
  | None => false
  end.

(** ** classList *)

Module DOMTokenList.

Definition contains (l : list string) (tok : string) : bool :=
  existsb (String.eqb tok) l.

Definition remove (l : list string) (tok : string) : list string :=
  List.filter (fun t => negb (String.eqb tok t)) l.

Definition add (l : list string) (tok : string) : list string :=
  if contains l tok then l else l ++ [tok].

Definition toggle (l : list string) (tok : string) : list string :=
  if contains l tok then remove l tok else l ++ [tok].

End DOMTokenList.

(** ** Navigation highlighting (script.js, lines 45-63) *)

(** A [<section>]: the two layout numbers the script reads and its [id]
    attribute. *)
Record SectionEl := {
  offsetTop : Z;
  clientHeight : Z;
  sec_id : option string
}.

(** A [.nav-link] anchor. *)
Record NavLink := {
  href : option string;
  link_classList : list string
}.

(** The test of line 52. *)
Definition in_section_range (scrollY : Z) (section : SectionEl) : bool :=
  let sectionTop := offsetTop section - 100 in
  let sectionHeight := clientHeight section in
  (sectionTop <=? scrollY) && (scrollY <? sectionTop + sectionHeight).

(** The first loop, lines 46-55: [current] starts as the empty string and is
    overwritten by every section whose range holds [scrollY]. *)
Definition current_section (scrollY : Z) (sections : list SectionEl)
  : option string :=
  List.fold_left
    (fun current section =>
       if in_section_range scrollY section then sec_id section else current)
    sections (Some "").

(** The fragment [`#${current}`] of line 59. *)
Definition fragment (current : option string) : string :=
  String.append "#" (js_to_string current).

(** The body of the second loop, lines 58-61. *)
Definition update_link (current : option string) (link : NavLink) : NavLink :=
  let removed := DOMTokenList.remove (link_classList link) "active" in
  {| href := href link;
     link_classList :=
       if strict_eq (href link) (fragment current)
       then DOMTokenList.add removed "active"
       else removed |}.

Definition updateActiveNavLink (scrollY : Z) (sections : list SectionEl)
  (navLinks : list NavLink) : list NavLink :=
  List.map (update_link (current_section scrollY sections)) navLinks.

Definition is_active (link : NavLink) : bool :=
  DOMTokenList.contains (link_classList link) "active".

(** ** The mobile menu (script.js, lines 68-84) *)

(** What the menu functions and the anchor handler read and write. The two
    last fields record the calls of [window.scrollTo] and of
    [history.pushState], oldest first. *)
Record Page := {
  aria_expanded : option string;
  container_classList : list string;
  body_overflow : string;
  innerWidth : Z;
  scroll_requests : list Z;
  history_entries : list string
}.

(** [setAttribute('aria-expanded', b)] stores [String(b)]. *)
Definition string_of_bool (b : bool) : string :=
  if b then "true" else "false".

Definition toggleMobileMenu (p : Page) : Page :=
  let isExpanded := strict_eq (aria_expanded p) "true" in
  {| aria_expanded := Some (string_of_bool (negb isExpanded));
     container_classList := DOMTokenList.toggle (container_classList p) "active";
     body_overflow := if isExpanded then "" else "hidden";
     innerWidth := innerWidth p;
     scroll_requests := scroll_requests p;
     history_entries := history_entries p |}.

Definition closeMobileMenu (p : Page) : Page :=
  {| aria_expanded := Some "false";
     container_classList := DOMTokenList.remove (container_classList p) "active";
     body_overflow := "";
     innerWidth := innerWidth p;
     scroll_requests := scroll_requests p;
     history_entries := history_entries p |}.

(** The expanded boolean, as line 69 reads it. *)
Definition is_expanded (p : Page) : bool :=
  strict_eq (aria_expanded p) "true".

Definition menu_active (p : Page) : bool :=
  DOMTokenList.contains (container_classList p) "active".

(** The two representations of the expanded state agree. *)
Definition representations_agree (p : Page) : Prop :=
  is_expanded p = menu_active p.

(** The state [closeMobileMenu] leaves the menu in. *)
Definition menu_closed (p : Page) : Prop :=
  aria_expanded p = Some "false" /\
  menu_active p = false /\
  body_overflow p = "".

(** Two calls of [toggleMobileMenu]
    give back the expanded boolean and its three representations. *)
Definition toggle_twice_restores (p : Page) : Prop :=
  let q := toggleMobileMenu (toggleMobileMenu p) in
  is_expanded q = is_expanded p /\
  aria_expanded q = aria_expanded p /\
  menu_active q = menu_active p /\
  body_overflow q = body_overflow p.

(** ** In-page anchors (script.js, lines 122-152) *)

Definition scrollTo (top : Z) (p : Page) : Page :=
  {| aria_expanded := aria_expanded p;
     container_classList := container_classList p;
     body_overflow := body_overflow p;
     innerWidth := innerWidth p;
     scroll_requests := scroll_requests p ++ [top];
     history_entries := history_entries p |}.

Definition pushState (url : string) (p : Page) : Page :=
  {| aria_expanded := aria_expanded p;
     container_classList := container_classList p;
     body_overflow := body_overflow p;
     innerWidth := innerWidth p;
     scroll_requests := scroll_requests p;
     history_entries := history_entries p ++ [url] |}.

(** [document.querySelector(href)]: the [offsetTop] of the first match, no
    match ([null]), or a [SyntaxError] when [href] is no valid selector. *)
Inductive QueryResult :=
| Found (targetTop : Z)
| NoMatch
| InvalidSelector.

(** The document as the click handler sees it: the selector engine, and the
    [offsetHeight] of the navbar ([None] when there is no [.navbar]). *)
Record Document := {
  querySelector : string -> QueryResult;
  navbar_offsetHeight : option Z
}.

(** What a run of the click listener leaves: the page, whether
    [e.preventDefault()] was called, and whether the listener ended by an
    exception. *)
Record ClickOutcome := {
  page_after : Page;
  defaultPrevented : bool;
  threw : bool
}.

(** The listener of lines 124-150, on an anchor whose [href] attribute is
    [h]. *)
Definition anchor_click (doc : Document) (h : string) (p : Page)
  : ClickOutcome :=
  if String.eqb h "#" then
    {| page_after := p; defaultPrevented := false; threw := false |}
  else
    match querySelector doc h with
    | InvalidSelector =>
        {| page_after := p; defaultPrevented := true; threw := true |}
    | NoMatch =>
        {| page_after := p; defaultPrevented := true; threw := false |}
    | Found targetTop =>
        let p1 := closeMobileMenu p in
        match navbar_offsetHeight doc with
        | None =>
            {| page_after := p1; defaultPrevented := true; threw := true |}
        | Some headerHeight =>
            let targetPosition := targetTop - headerHeight in
            let p2 := scrollTo targetPosition p1 in
            let p3 := if negb (String.eqb h "#home") then pushState h p2 else p2 in
            {| page_after := p3; defaultPrevented := true; threw := false |}
        end
    end.

(** ** The other listeners (script.js, lines 157-191) *)

(** The document click listener, lines 170-176; the two booleans are
    [navLinksContainer.contains(e.target)] and
    [menuToggle.contains(e.target)]. *)
Definition document_click (inContainer inToggle : bool) (p : Page) : Page :=
  if negb inContainer && negb inToggle && menu_active p
  then closeMobileMenu p
  else p.

(** The keydown listener, lines 179-183. *)
Definition document_keydown (key : string) (p : Page) : Page :=
  if String.eqb key "Escape" && menu_active p
  then closeMobileMenu p
  else p.

(** The function that the resize listener debounces, lines 186-190. *)
Definition resize_handler (p : Page) : Page :=
  if 768 <? innerWidth p then closeMobileMenu p else p.

(** The window gets a new width. *)
Definition set_innerWidth (w : Z) (p : Page) : Page :=
  {| aria_expanded := aria_expanded p;
     container_classList := container_classList p;
     body_overflow := body_overflow p;
     innerWidth := w;
     scroll_requests := scroll_requests p;
     history_entries := history_entries p |}.

(** Everything of the script that touches the menu state. *)
Inductive Operation :=
| OpToggleMobileMenu
| OpCloseMobileMenu
| OpDocumentClick (inContainer inToggle : bool)
| OpKeydown (key : string)
| OpResizeHandler
| OpAnchorClick (h : string)
| OpSetInnerWidth (w : Z).

Definition perform (doc : Document) (op : Operation) (p : Page) : Page :=
  match op with
  | OpToggleMobileMenu => toggleMobileMenu p
  | OpCloseMobileMenu => closeMobileMenu p
  | OpDocumentClick inContainer inToggle => document_click inContainer inToggle p
  | OpKeydown key => document_keydown key p
  | OpResizeHandler => resize_handler p
  | OpAnchorClick h => page_after (anchor_click doc h p)
  | OpSetInnerWidth w => set_innerWidth w p
  end.

Definition perform_all (doc : Document) (ops : list Operation) (p : Page) : Page :=
  List.fold_left (fun q op => perform doc op q) ops p.

(** ** Timers of the event loop *)

(** A pending timer: the handle [setTimeout] returned, the time from which it
    may run, and what it runs. *)
Record Timer (C : Type) := {
  timer_id : nat;
  timer_due : Z;
  timer_callback : C
}.
Arguments timer_id {C} _.
Arguments timer_due {C} _.
Arguments timer_callback {C} _.

(** [setTimeout(callback, delay)] at time [now]; [handle] is the fresh handle
    it returns. A negative delay counts as zero. *)
Definition setTimeout {C} (now : Z) (handle : nat) (callback : C) (delay : Z)
  (table : list (Timer C)) : list (Timer C) :=
  table ++ [{| timer_id := handle;
               timer_due := now + Z.max 0 delay;
               timer_callback := callback |}].

(** [clearTimeout(handle)]; [None] is [undefined], which clears nothing, as
    does a handle that is no longer pending. *)
Definition clearTimeout {C} (handle : option nat) (table : list (Timer C))
  : list (Timer C) :=
  match handle with
  | None => table
  | Some h => List.filter (fun t => negb (Nat.eqb (timer_id t) h)) table
  end.

(** The earliest of the timers of [table], the first one set among equals. *)
Fixpoint earliest {C} (best : option (Timer C)) (table : list (Timer C))
  : option (Timer C) :=
  match table with
  | [] => best
  | t :: rest =>
      earliest
        (match best with
         | None => Some t
         | Some b => if timer_due t <? timer_due b then Some t else Some b
         end)
        rest
  end.

(** The timer the event loop runs next at time [now], if one is due. *)
Definition next_due {C} (now : Z) (table : list (Timer C)) : option (Timer C) :=
  earliest None (List.filter (fun t => timer_due t <=? now) table).

(** ** debounce (script.js, lines 16-26) *)

Section Debounce.

Context {A W : Type}.

(** [func] acts on the state [W] of the rest of the page; [wait] is in
    milliseconds. *)
Variable func : A -> W -> W.
Variable wait : Z.

(** The closure that [debounce(func, wait)] returns, together with the event
    loop it runs in: the clock, the next fresh handle, the pending timers set
    by this closure (each holds the [args] its [later] captured), the
    variable [timeout] ([None] is [undefined]) and the state [func] acts on.
    [executions] records every run of [func]: the time and the arguments. *)
Record Debounced := {
  now : Z;
  next_handle : nat;
  timers : list (Timer A);
  timeout : option nat;
  world : W;
  executions : list (Z * A)
}.

Definition debounce (w : W) : Debounced :=
  {| now := 0;
     next_handle := 1;
     timers := [];
     timeout := None;
     world := w;
     executions := [] |}.

(** [executedFunction(...args)], lines 23-24. *)
Definition executedFunction (args : A) (s : Debounced) : Debounced :=
  let cleared := clearTimeout (timeout s) (timers s) in
  {| now := now s;
     next_handle := S (next_handle s);
     timers := setTimeout (now s) (next_handle s) args wait cleared;
     timeout := Some (next_handle s);
     world := world s;
     executions := executions s |}.

(** [later], lines 19-22, run by the event loop for a timer that captured
    [args]. *)
Definition later (args : A) (s : Debounced) : Debounced :=
  {| now := now s;
     next_handle := next_handle s;
     timers := clearTimeout (timeout s) (timers s);
     timeout := timeout s;
     world := func args (world s);
     executions := executions s ++ [(now s, args)] |}.

(** The event loop takes a due timer out of the table and runs it. *)
Definition fire (t : Timer A) (s : Debounced) : Debounced :=
  later (timer_callback t)
    {| now := now s;
       next_handle := next_handle s;
       timers := clearTimeout (Some (timer_id t)) (timers s);
       timeout := timeout s;
       world := world s;
       executions := executions s |}.

(** The event loop runs the due timers, earliest first. *)
Fixpoint run_due (fuel : nat) (s : Debounced) : Debounced :=
  match fuel with
  | O => s
  | S fuel' =>
      match next_due (now s) (timers s) with
      | None => s
      | Some t => run_due fuel' (fire t s)
      end
  end.

(** The clock moves on by [d] milliseconds (a negative [d] by none). *)
Definition tick (d : Z) (s : Debounced) : Debounced :=
  {| now := now s + Z.max 0 d;
     next_handle := next_handle s;
     timers := timers s;
     timeout := timeout s;
     world := world s;
     executions := executions s |}.

(** [d] milliseconds pass and the event loop runs what has become due. No
    callback sets a timer, so the length of the table is fuel enough
    (lemma [elapse_settles]). *)
Definition elapse (d : Z) (s : Debounced) : Debounced :=
  run_due (length (timers s)) (tick d s).

(** Code other than the debounced function runs and changes the page. *)
Definition outside (f : W -> W) (s : Debounced) : Debounced :=
  {| now := now s;
     next_handle := next_handle s;
     timers := timers s;
     timeout := timeout s;
     world := f (world s);
     executions := executions s |}.

Inductive Event :=
| Call (args : A)
| Elapse (d : Z)
| Outside (f : W -> W).

Definition step (s : Debounced) (e : Event) : Debounced :=
  match e with
  | Call args => executedFunction args s
  | Elapse d => elapse d s
  | Outside f => outside f s
  end.

Definition run (trace : list Event) (s : Debounced) : Debounced :=
  List.fold_left step trace s.

(** What a trace says without running it: the time it takes, and whether it
    holds no call of the debounced function. *)
Definition duration (trace : list Event) : Z :=
  List.fold_left
    (fun acc e => match e with Elapse d => acc + Z.max 0 d | _ => acc end)
    trace 0.

Definition is_call (e : Event) : bool :=
  match e with Call _ => true | _ => false end.

Definition quiet (trace : list Event) : bool :=
  forallb (fun e => negb (is_call e)) trace.

(** At most one timer of the closure is pending, and [timeout] holds its
    handle. *)
Definition single_pending (s : Debounced) : Prop :=
  timers s = [] \/
  exists t, timers s = [t] /\ timeout s = Some (timer_id t).

End Debounce.

Arguments Debounced : clear implicits.
Arguments Event : clear implicits.
Arguments Call {A W} _.
Arguments Elapse {A W} _.
Arguments Outside {A W} _.

(** ** The debounced resize listener (script.js, lines 186-190) *)

(** [debounce(() => { if (window.innerWidth > 768) closeMobileMenu(); }, 250)];
    the listener ignores the event it is called with. *)
Definition resize_func (_ : unit) (p : Page) : Page := resize_handler p.
Definition resize_wait : Z := 250.

(** A resize event: the window has its new width when the listener runs. *)
Definition resize_event (w : Z) : list (Event unit Page) :=
  [Outside (set_innerWidth w); Call tt].

Definition run_resize (trace : list (Event unit Page)) (s : Debounced unit Page)
  : Debounced unit Page :=
  run resize_func resize_wait trace s.

(** An event that is no resize: time passing, or other code that leaves the
    width of the window as it is (the menu may be opened or closed). *)
Definition keeps_width (e : Event unit Page) : Prop :=
  match e with
  | Call _ => False
  | Elapse _ => True
  | Outside f => forall q, innerWidth (f q) = innerWidth q
  end.

(** ** Reveal animation (script.js, lines 33-39 and 90-107) *)

(** A decorative element: its bounding rectangle in the viewport, its class
    list and the three inline style properties the script writes. *)
Record Element := {
  rect_top : float;
  rect_bottom : float;
  el_classList : list string;
  style_opacity : string;
  style_transform : string;
  style_transition : string
}.

Record Viewport := {
  window_innerHeight : float;
  documentElement_clientHeight : float
}.

(** A number is falsy when it is zero or NaN. *)
Definition js_truthy (x : float) : bool :=
  negb (PrimFloat.eqb x 0%float || PrimFloat.is_nan x).

(** The number that the literal [0.8] denotes: the binary64 nearest to 4/5. *)
Definition zero_point_eight : float := 0x1.999999999999ap-1%float.

Definition isInViewport (vp : Viewport) (element : Element) : bool :=
  let height :=
    if js_truthy (window_innerHeight vp)
    then window_innerHeight vp
    else documentElement_clientHeight vp in
  PrimFloat.leb (rect_top element) (PrimFloat.mul height zero_point_eight)
  && PrimFloat.leb 0%float (rect_bottom element).

(** Lines 95-97. *)
Definition start_animation (element : Element) : Element :=
  {| rect_top := rect_top element;
     rect_bottom := rect_bottom element;
     el_classList := DOMTokenList.add (el_classList element) "animated";
     style_opacity := "0";
     style_transform := "translateY(20px)";
     style_transition := style_transition element |}.

(** Lines 101-103, the callback of the timer. *)
Definition finish_animation (element : Element) : Element :=
  {| rect_top := rect_top element;
     rect_bottom := rect_bottom element;
     el_classList := el_classList element;
     style_opacity := "1";
     style_transform := "translateY(0)";
     style_transition := "opacity 0.6s ease, transform 0.6s ease" |}.

(** The decorative elements of the document in document order, with the
    event loop: a timer holds the index of the element its callback
    captured. [animations] records, for every [setTimeout] of line 100, the
    element it was set for. *)
Record Stage := {
  clock : Z;
  fresh_handle : nat;
  pending : list (Timer nat);
  elements : list Element;
  viewport : Viewport;
  animations : list nat
}.

(** The body of the loop of [animateOnScroll] for the element at index [i],
    lines 94-105. *)
Definition animate_element (s : Stage) (i : nat) : Stage :=
  match elements s !! i with
  | None => s
  | Some element =>
      if isInViewport (viewport s) element
         && negb (DOMTokenList.contains (el_classList element) "animated")
      then
        {| clock := clock s;
           fresh_handle := S (fresh_handle s);
           pending := setTimeout (clock s) (fresh_handle s) i 100 (pending s);
           elements := <[i := start_animation element]> (elements s);
           viewport := viewport s;
           animations := animations s ++ [i] |}
      else s
  end.

Definition animateOnScroll (s : Stage) : Stage :=
  List.fold_left animate_element (seq 0 (length (elements s))) s.

(** The event loop runs the timer [t]. *)
Definition fire_animation (t : Timer nat) (s : Stage) : Stage :=
  {| clock := clock s;
     fresh_handle := fresh_handle s;
     pending := clearTimeout (Some (timer_id t)) (pending s);
     elements :=
       match elements s !! timer_callback t with
       | Some element => <[timer_callback t := finish_animation element]> (elements s)
       | None => elements s
       end;
     viewport := viewport s;
     animations := animations s |}.

Fixpoint run_animations (fuel : nat) (s : Stage) : Stage :=
  match fuel with
  | O => s
  | S fuel' =>
      match next_due (clock s) (pending s) with
      | None => s
      | Some t => run_animations fuel' (fire_animation t s)
      end
  end.

Definition wait_for (d : Z) (s : Stage) : Stage :=
  run_animations (length (pending s))
    {| clock := clock s + Z.max 0 d;
       fresh_handle := fresh_handle s;
       pending := pending s;
       elements := elements s;
       viewport := viewport s;
       animations := animations s |}.

(** Scrolling and resizing move the rectangles and resize the viewport. *)
Definition move (rect : float * float) (element : Element) : Element :=
  {| rect_top := fst rect;
     rect_bottom := snd rect;
     el_classList := el_classList element;
     style_opacity := style_opacity element;
     style_transform := style_transform element;
     style_transition := style_transition element |}.

Definition relayout (rects : nat -> float * float) (vp : Viewport) (s : Stage)
  : Stage :=
  {| clock := clock s;
     fresh_handle := fresh_handle s;
     pending := pending s;
     elements := imap (fun i element => move (rects i) element) (elements s);
     viewport := vp;
     animations := animations s |}.

Inductive StageEvent :=
| Animate
| Wait (d : Z)
| Relayout (rects : nat -> float * float) (vp : Viewport).

Definition stage_step (s : Stage) (e : StageEvent) : Stage :=
  match e with
  | Animate => animateOnScroll s
  | Wait d => wait_for d s
  | Relayout rects vp => relayout rects vp s
  end.

Definition play (trace : list StageEvent) (s : Stage) : Stage :=
  List.fold_left stage_step trace s.

(** The page as loaded: no timer is pending and none was ever set. *)
Definition loaded (els : list Element) (vp : Viewport) : Stage :=
  {| clock := 0;
     fresh_handle := 1;
     pending := [];
     elements := els;
     viewport := vp;
     animations := [] |}.

Definition is_animated (element : Element) : bool :=
  DOMTokenList.contains (el_classList element) "animated".

(** Every element for which a timer was ever set carries the marker, and no
    element had a timer set twice. *)
Definition marked_when_scheduled (s : Stage) : Prop :=
  forall i, In i (animations s) ->
    exists element, elements s !! i = Some element /\ is_animated element = true.

Definition animated_once (s : Stage) : Prop :=
  NoDup (animations s) /\ marked_when_scheduled s.

(** The pending timers whose callback holds the element at index [i]. *)
Definition timers_of (i : nat) (table : list (Timer nat)) : list (Timer nat) :=
  List.filter (fun t => Nat.eqb (timer_callback t) i) table.

(** ** Example documents *)

(** Three sections, the second overlapping the first, and their links. *)
Definition home_section : SectionEl :=
  {| offsetTop := 0; clientHeight := 500; sec_id := Some "home" |}.
Definition about_section : SectionEl :=
  {| offsetTop := 400; clientHeight := 400; sec_id := Some "about" |}.
Definition contact_section : SectionEl :=
  {| offsetTop := 800; clientHeight := 300; sec_id := Some "contact" |}.

Definition home_link : NavLink :=
  {| href := Some "#home"; link_classList := ["nav-link"; "active"] |}.
Definition about_link : NavLink :=
  {| href := Some "#about"; link_classList := ["nav-link"] |}.
Definition contact_link : NavLink :=
  {| href := Some "#contact"; link_classList := ["nav-link"] |}.

(** A nav-link back to the top of the page. *)
Definition top_link : NavLink :=
  {| href := Some "#"; link_classList := ["nav-link"] |}.

(** The menu closed and the menu open, on a phone. *)
Definition closed_page : Page :=
  {| aria_expanded := Some "false";
     container_classList := ["nav-links"];
     body_overflow := "";
     innerWidth := 600;
     scroll_requests := [];
     history_entries := [] |}.

Definition open_page : Page :=
  {| aria_expanded := Some "true";
     container_classList := ["nav-links"; "active"];
     body_overflow := "hidden";
     innerWidth := 600;
     scroll_requests := [];
     history_entries := [] |}.

(** A toggle whose markup carries no aria-expanded attribute. *)
Definition unlabelled_page : Page :=
  {| aria_expanded := None;
     container_classList := ["nav-links"];
     body_overflow := "";
     innerWidth := 600;
     scroll_requests := [];
     history_entries := [] |}.

(** A page whose markup says expanded while the menu is hidden. *)
Definition out_of_sync_page : Page :=
  {| aria_expanded := Some "true";
     container_classList := ["nav-links"];
     body_overflow := "";
     innerWidth := 600;
     scroll_requests := [];
     history_entries := [] |}.

(** A document with the three sections above and a navbar 70 pixels high;
    "#2020" is no valid selector. *)
Definition example_document : Document :=
  {| querySelector := fun h =>
       if String.eqb h "#home" then Found 0
       else if String.eqb h "#about" then Found 400
       else if String.eqb h "#contact" then Found 800
       else if String.eqb h "#2020" then InvalidSelector
       else NoMatch;
     navbar_offsetHeight := Some 70 |}.

(** A debounced logger: [func] appends its argument to the page's log. *)
Definition record_call (args : string) (log : list string) : list string :=
  log ++ [args].

Definition sample_calls : list (Event string (list string)) :=
  [Call "a"; Elapse 50; Call "b"; Elapse 99; Elapse 1; Elapse 500;
   Call "c"; Elapse 100].

(** The menu is opened on a phone 600 pixels wide, and the window is then
    resized in two steps. *)
Definition rotation : list (Event unit Page) :=
  Outside toggleMobileMenu :: resize_event 700 ++ [Elapse 100].

(** What happens while the last resize settles: 249 milliseconds in two
    steps, and the menu closed and opened again by hand. *)
Definition settling : list (Event unit Page) :=
  [Elapse 100; Outside toggleMobileMenu; Outside toggleMobileMenu; Elapse 149].

(** Two cards, the first in view and the second below the fold of a
    viewport 1000 pixels high. *)
Definition desktop : Viewport :=
  {| window_innerHeight := 1000%float;
     documentElement_clientHeight := 985%float |}.

Definition first_card : Element :=
  {| rect_top := 100%float;
     rect_bottom := 300%float;
     el_classList := ["project-card"];
     style_opacity := "";
     style_transform := "";
     style_transition := "" |}.

Definition second_card : Element :=
  {| rect_top := 900%float;
     rect_bottom := 1100%float;
     el_classList := ["project-card"];
     style_opacity := "";
     style_transform := "";
     style_transition := "" |}.

(** Scrolling down by 400 pixels. *)
Definition scrolled (i : nat) : float * float :=
  match i with
  | O => ((-300)%float, (-100)%float)
  | _ => (500%float, 700%float)
  end.

(** ** Layouts and states the further properties speak of *)

(** Sections laid out one under the other: each has a height that is not
    negative and starts where the one before it ends. *)
Fixpoint stacked (sections : list SectionEl) : Prop :=
  match sections with
  | [] => True
  | s :: rest =>
      0 <= clientHeight s /\
      match rest with
      | [] => True
      | next :: _ => offsetTop next = offsetTop s + clientHeight s
      end /\
      stacked rest
  end.

Definition total_height (sections : list SectionEl) : Z :=
  List.fold_right (fun s acc => clientHeight s + acc) 0 sections.

(** The menu open, with its three representations in step. *)
Definition menu_open (p : Page) : Prop :=
  aria_expanded p = Some "true" /\
  menu_active p = true /\
  body_overflow p = "hidden".

Definition in_step (p : Page) : Prop := menu_open p \/ menu_closed p.

(** The inline styles at the end of the reveal transition. *)
Definition revealed (element : Element) : Prop :=
  style_opacity element = "1" /\
  style_transform element = "translateY(0)" /\
  style_transition element = "opacity 0.6s ease, transform 0.6s ease".

(** The test of line 94. *)
Definition starts_animation (vp : Viewport) (element : Element) : bool :=
  isInViewport vp element && negb (is_animated element).

(** Classes and inline styles, which a relayout leaves alone. *)
Definition same_look (a b : Element) : Prop :=
  el_classList a = el_classList b /\
  style_opacity a = style_opacity b /\
  style_transform a = style_transform b /\
  style_transition a = style_transition b.

(** Three sections stacked without gap or overlap. *)
Definition hero_block : SectionEl :=
  {| offsetTop := 0; clientHeight := 600; sec_id := Some "home" |}.
Definition about_block : SectionEl :=
  {| offsetTop := 600; clientHeight := 500; sec_id := Some "about" |}.
Definition contact_block : SectionEl :=
  {| offsetTop := 1100; clientHeight := 400; sec_id := Some "contact" |}.

(** Whether the loop of [animateOnScroll] starts the element at index [i]. *)
Definition started_at (s : Stage) (i : nat) : bool :=
  match elements s !! i with
  | Some element => starts_animation (viewport s) element
  | None => false
  end.

(** What the loop makes of one element. *)
Definition animated_element (vp : Viewport) (element : Element) : Element :=
  if starts_animation vp element then start_animation element else element.

(** The pending timers of the reveal animation: their handles are distinct
    and were handed out already, each is due within 100 ms, and each was set
    for an element of the document that is on record in [animations]. *)
Definition timers_sound (s : Stage) : Prop :=
  List.NoDup (List.map timer_id (pending s)) /\
  Forall
    (fun t =>
       (timer_id t < fresh_handle s)%nat /\
       timer_due t <= clock s + 100 /\
       In (timer_callback t) (animations s) /\
       is_Some (elements s !! timer_callback t))
    (pending s).

(** Every element whose animation was started either still has its timer
    pending or has the final styles. *)
Definition none_left_hidden (s : Stage) : Prop :=
  forall i, In i (animations s) ->
    (exists t, In t (pending s) /\ timer_callback t = i) \/
    (exists element, elements s !! i = Some element /\ revealed element).

(** Elements whose animation was never started look as they did in [els]. *)
Definition others_untouched (els : list Element) (s : Stage) : Prop :=
  length (elements s) = length els /\
  forall i original,
    els !! i = Some original ->
    ~ In i (animations s) ->
    exists element, elements s !! i = Some element /\ same_look element original.

Definition stage_ok (els : list Element) (s : Stage) : Prop :=
  animated_once s /\ timers_sound s /\ none_left_hidden s /\
  others_untouched els s.

(** ** The page as a whole (script.js, lines 113-117 and 157-224)

    One event loop for the whole script: the clock, the handle counter and
    the timers of the reveal animation are those of the [Stage]; the two
    closures that [initEventListeners] gets from [debounce] keep their own
    timers, set with handles of the same counter. *)

(** A closure returned by [debounce]: the timers it has pending and its
    variable [timeout]. Its [func] ignores the event it is called with. *)
Record Closure := {
  closure_timers : list (Timer unit);
  closure_timeout : option nat
}.

(** [executedFunction], lines 23-24, at time [now], [handle] being the fresh
    handle that [setTimeout] returns. *)
Definition closure_call (now : Z) (handle : nat) (wait : Z) (c : Closure)
  : Closure :=
  {| closure_timers :=
       setTimeout now handle tt wait
         (clearTimeout (closure_timeout c) (closure_timers c));
     closure_timeout := Some handle |}.

(** The event loop takes the due timer [t] of the closure out of the table. *)
Definition closure_take (t : Timer unit) (c : Closure) : Closure :=
  {| closure_timers := clearTimeout (Some (timer_id t)) (closure_timers c);
     closure_timeout := closure_timeout c |}.

(** The [clearTimeout(timeout)] of [later], line 20. *)
Definition closure_later (c : Closure) : Closure :=
  {| closure_timers := clearTimeout (closure_timeout c) (closure_timers c);
     closure_timeout := closure_timeout c |}.

Definition idle_closure : Closure :=
  {| closure_timers := []; closure_timeout := None |}.

(** The whole page: the stage, the closures of the scroll and the resize
    listeners, the menu and what the anchors did, the scroll offset, the
    sections and nav-links, the text of the element with id "current-year"
    ([None] when the document has none) and the class list of the body. *)
Record Browser := {
  stage_of : Stage;
  scroll_closure : Closure;
  resize_closure : Closure;
  page_of : Page;
  window_scrollY : Z;
  section_list : list SectionEl;
  nav_link_list : list NavLink;
  year_text : option string;
  body_classList : list string
}.

Definition with_stage (s : Stage) (b : Browser) : Browser :=
  {| stage_of := s;
     scroll_closure := scroll_closure b;
     resize_closure := resize_closure b;
     page_of := page_of b;
     window_scrollY := window_scrollY b;
     section_list := section_list b;
     nav_link_list := nav_link_list b;
     year_text := year_text b;
     body_classList := body_classList b |}.

Definition with_scroll_closure (c : Closure) (b : Browser) : Browser :=
  {| stage_of := stage_of b;
     scroll_closure := c;
     resize_closure := resize_closure b;
     page_of := page_of b;
     window_scrollY := window_scrollY b;
     section_list := section_list b;
     nav_link_list := nav_link_list b;
     year_text := year_text b;
     body_classList := body_classList b |}.

Definition with_resize_closure (c : Closure) (b : Browser) : Browser :=
  {| stage_of := stage_of b;
     scroll_closure := scroll_closure b;
     resize_closure := c;
     page_of := page_of b;
     window_scrollY := window_scrollY b;
     section_list := section_list b;
     nav_link_list := nav_link_list b;
     year_text := year_text b;
     body_classList := body_classList b |}.

Definition with_page (p : Page) (b : Browser) : Browser :=
  {| stage_of := stage_of b;
     scroll_closure := scroll_closure b;
     resize_closure := resize_closure b;
     page_of := p;
     window_scrollY := window_scrollY b;
     section_list := section_list b;
     nav_link_list := nav_link_list b;
     year_text := year_text b;
     body_classList := body_classList b |}.

Definition with_nav_links (links : list NavLink) (b : Browser) : Browser :=
  {| stage_of := stage_of b;
     scroll_closure := scroll_closure b;
     resize_closure := resize_closure b;
     page_of := page_of b;
     window_scrollY := window_scrollY b;
     section_list := section_list b;
     nav_link_list := links;
     year_text := year_text b;
     body_classList := body_classList b |}.

(** The setTimeout of a closure has used up a handle. *)
Definition take_handle (s : Stage) : Stage :=
  {| clock := clock s;
     fresh_handle := S (fresh_handle s);
     pending := pending s;
     elements := elements s;
     viewport := viewport s;
     animations := animations s |}.

Definition advance_clock (d : Z) (s : Stage) : Stage :=
  {| clock := clock s + Z.max 0 d;
     fresh_handle := fresh_handle s;
     pending := pending s;
     elements := elements s;
     viewport := viewport s;
     animations := animations s |}.

(** [updateActiveNavLink()] on the page. *)
Definition page_updateActiveNavLink (b : Browser) : Browser :=
  with_nav_links
    (updateActiveNavLink (window_scrollY b) (section_list b) (nav_link_list b))
    b.

(** [animateOnScroll()] on the page. *)
Definition page_animateOnScroll (b : Browser) : Browser :=
  with_stage (animateOnScroll (stage_of b)) b.

(** The function that the scroll listener debounces, lines 159-162. *)
Definition scroll_func (b : Browser) : Browser :=
  page_animateOnScroll (page_updateActiveNavLink b).

(** The scroll listener is called, line 159: wait 100. *)
Definition scroll_listener (b : Browser) : Browser :=
  with_stage (take_handle (stage_of b))
    (with_scroll_closure
       (closure_call (clock (stage_of b)) (fresh_handle (stage_of b)) 100
          (scroll_closure b))
       b).

(** The resize listener is called, line 186: wait 250. *)
Definition resize_listener (b : Browser) : Browser :=
  with_stage (take_handle (stage_of b))
    (with_resize_closure
       (closure_call (clock (stage_of b)) (fresh_handle (stage_of b)) 250
          (resize_closure b))
       b).

(** [later] of the scroll closure and of the resize closure. *)
Definition scroll_later (b : Browser) : Browser :=
  scroll_func (with_scroll_closure (closure_later (scroll_closure b)) b).

Definition resize_later (b : Browser) : Browser :=
  let b1 := with_resize_closure (closure_later (resize_closure b)) b in
  with_page (resize_handler (page_of b1)) b1.

(** A timer that is due, with the table it is in. *)
Inductive DueTimer :=
| DueScroll (t : Timer unit)
| DueResize (t : Timer unit)
| DueReveal (t : Timer nat).

Definition due_time (x : DueTimer) : Z :=
  match x with
  | DueScroll t | DueResize t => timer_due t
  | DueReveal t => timer_due t
  end.

Definition due_handle (x : DueTimer) : nat :=
  match x with
  | DueScroll t | DueResize t => timer_id t
  | DueReveal t => timer_id t
  end.

(** The earlier of two due timers; of two due at the same time, the one set
    first, which has the smaller handle. *)
Definition sooner (x y : DueTimer) : DueTimer :=
  if (due_time x <? due_time y)
     || ((due_time x =? due_time y) && (due_handle x <=? due_handle y)%nat)
  then x else y.

Definition sooner_of (x y : option DueTimer) : option DueTimer :=
  match x, y with
  | Some a, Some b => Some (sooner a b)
  | Some a, None => Some a
  | None, _ => y
  end.

(** The timer the event loop runs next, if one is due. *)
Definition next_timer (b : Browser) : option DueTimer :=
  let now := clock (stage_of b) in
  sooner_of
    (DueScroll <$> next_due now (closure_timers (scroll_closure b)))
    (sooner_of
       (DueResize <$> next_due now (closure_timers (resize_closure b)))
       (DueReveal <$> next_due now (pending (stage_of b)))).

Definition fire_timer (x : DueTimer) (b : Browser) : Browser :=
  match x with
  | DueScroll t =>
      scroll_later (with_scroll_closure (closure_take t (scroll_closure b)) b)
  | DueResize t =>
      resize_later (with_resize_closure (closure_take t (resize_closure b)) b)
  | DueReveal t => with_stage (fire_animation t (stage_of b)) b
  end.

Fixpoint run_timers (fuel : nat) (b : Browser) : Browser :=
  match fuel with
  | O => b
  | S fuel' =>
      match next_timer b with
      | None => b
      | Some x => run_timers fuel' (fire_timer x b)
      end
  end.

Definition timer_count (b : Browser) : nat :=
  (length (closure_timers (scroll_closure b))
   + length (closure_timers (resize_closure b))
   + length (pending (stage_of b)))%nat.

(** [d] milliseconds pass and the event loop runs what has become due. The
    only timers a callback sets are those of [animateOnScroll], due 100 ms
    later, so the number of pending timers is fuel enough (lemma
    [pass_settles]). *)
Definition pass (d : Z) (b : Browser) : Browser :=
  run_timers (timer_count b) (with_stage (advance_clock d (stage_of b)) b).

(** [String(new Date().getFullYear())] for the year [year]. *)
Definition year_string (year : Z) : string :=
  NilZero.string_of_int (Z.to_int year).

(** [setCurrentYear], lines 113-117. *)
Definition setCurrentYear (year : Z) (b : Browser) : Browser :=
  {| stage_of := stage_of b;
     scroll_closure := scroll_closure b;
     resize_closure := resize_closure b;
     page_of := page_of b;
     window_scrollY := window_scrollY b;
     section_list := section_list b;
     nav_link_list := nav_link_list b;
     year_text :=
       match year_text b with
       | Some _ => Some (year_string year)
       | None => None
       end;
     body_classList := body_classList b |}.

Definition mark_loaded (b : Browser) : Browser :=
  {| stage_of := stage_of b;
     scroll_closure := scroll_closure b;
     resize_closure := resize_closure b;
     page_of := page_of b;
     window_scrollY := window_scrollY b;
     section_list := section_list b;
     nav_link_list := nav_link_list b;
     year_text := year_text b;
     body_classList := DOMTokenList.add (body_classList b) "loaded" |}.

(** [init], lines 196-207, in the year [year]: [initSmoothScrolling] and
    [initEventListeners] only register the listeners, which the events below
    run. *)
Definition init (year : Z) (b : Browser) : Browser :=
  mark_loaded
    (page_animateOnScroll (page_updateActiveNavLink (setCurrentYear year b))).

(** The document when the script starts: nothing pending. *)
Definition document_loaded (els : list Element) (vp : Viewport) (p : Page)
  (y : Z) (secs : list SectionEl) (links : list NavLink)
  (year_span : option string) (body_classes : list string) : Browser :=
  {| stage_of := loaded els vp;
     scroll_closure := idle_closure;
     resize_closure := idle_closure;
     page_of := p;
     window_scrollY := y;
     section_list := secs;
     nav_link_list := links;
     year_text := year_span;
     body_classList := body_classes |}.

(** What happens to the page after [init]: the user scrolls (the rectangles
    move, then the scroll listener runs); the window is resized (new width
    and layout, then the resize listener runs); a listener of the menu or of
    an anchor runs, or a function that [window.portfolio] exposes is
    called; time passes. *)
Inductive PageEvent :=
| EvScroll (y : Z) (rects : nat -> float * float)
| EvResize (w : Z) (secs : list SectionEl) (rects : nat -> float * float)
    (vp : Viewport)
| EvOperation (op : Operation)
| EvUpdateActiveNavLink
| EvAnimateOnScroll
| EvPass (d : Z).

Definition scroll_to (y : Z) (rects : nat -> float * float) (b : Browser)
  : Browser :=
  {| stage_of := relayout rects (viewport (stage_of b)) (stage_of b);
     scroll_closure := scroll_closure b;
     resize_closure := resize_closure b;
     page_of := page_of b;
     window_scrollY := y;
     section_list := section_list b;
     nav_link_list := nav_link_list b;
     year_text := year_text b;
     body_classList := body_classList b |}.

Definition resize_to (w : Z) (secs : list SectionEl)
  (rects : nat -> float * float) (vp : Viewport) (b : Browser) : Browser :=
  {| stage_of := relayout rects vp (stage_of b);
     scroll_closure := scroll_closure b;
     resize_closure := resize_closure b;
     page_of := set_innerWidth w (page_of b);
     window_scrollY := window_scrollY b;
     section_list := secs;
     nav_link_list := nav_link_list b;
     year_text := year_text b;
     body_classList := body_classList b |}.

Definition page_step (doc : Document) (b : Browser) (e : PageEvent) : Browser :=
  match e with
  | EvScroll y rects => scroll_listener (scroll_to y rects b)
  | EvResize w secs rects vp => resize_listener (resize_to w secs rects vp b)
  | EvOperation op => with_page (perform doc op (page_of b)) b
  | EvUpdateActiveNavLink => page_updateActiveNavLink b
  | EvAnimateOnScroll => page_animateOnScroll b
  | EvPass d => pass d b
  end.

Definition run_page (doc : Document) (trace : list PageEvent) (b : Browser)
  : Browser :=
  List.fold_left (page_step doc) trace b.

Definition page_duration (trace : list PageEvent) : Z :=
  List.fold_right
    (fun e acc => match e with EvPass d => Z.max 0 d + acc | _ => acc end)
    0 trace.

Definition is_scroll (e : PageEvent) : bool :=
  match e with EvScroll _ _ => true | _ => false end.

(** The highlight is up to date with the scroll offset and the layout, and
    every decorative element in the viewport carries "animated". *)
Definition nav_current (links : list NavLink) (b : Browser) : Prop :=
  nav_link_list b
  = updateActiveNavLink (window_scrollY b) (section_list b) links.

Definition in_view_marked (b : Browser) : Prop :=
  forall i element,
    elements (stage_of b) !! i = Some element ->
    isInViewport (viewport (stage_of b)) element = true ->
    is_animated element = true.

(** The nav-links are the original ones, as loaded or as some run of
    [updateActiveNavLink] left them. *)
Definition nav_marked_from (links : list NavLink) (b : Browser) : Prop :=
  nav_link_list b = links \/
  exists y secs, nav_link_list b = updateActiveNavLink y secs links.

(** Each closure has at most one timer pending, the one its [timeout]
    names. *)
Definition closure_single (c : Closure) : Prop :=
  closure_timers c = [] \/
  exists t, closure_timers c = [t] /\ closure_timeout c = Some (timer_id t).

(** What holds of the page from [init] on, for the original nav-links
    [links] and decorative elements [els]. *)
Definition page_ok (links : list NavLink) (els : list Element) (b : Browser)
  : Prop :=
  stage_ok els (stage_of b) /\
  closure_single (scroll_closure b) /\
  closure_single (resize_closure b) /\
  nav_marked_from links b.

(** The timers of a table that are due at time [now]. *)
Definition due_in {C} (now : Z) (table : list (Timer C)) : list (Timer C) :=
  List.filter (fun t => timer_due t <=? now) table.

Definition due_total (b : Browser) : nat :=
  (length (due_in (clock (stage_of b)) (closure_timers (scroll_closure b)))
   + length (due_in (clock (stage_of b)) (closure_timers (resize_closure b)))
   + length (due_in (clock (stage_of b)) (pending (stage_of b))))%nat.

(** The scroll listener has nothing pending and has done its work for the
    present scroll offset and layout. *)
Definition scroll_done (links : list NavLink) (b : Browser) : Prop :=
  closure_timers (scroll_closure b) = [] /\
  nav_current links b /\
  in_view_marked b.

(** A document for the whole page: the three stacked sections, their links,
    two cards, the menu closed, and a footer that shows the year 2020. *)
Definition portfolio : Browser :=
  document_loaded [first_card; second_card] desktop closed_page 0
    [hero_block; about_block; contact_block]
    [home_link; about_link; contact_link] (Some "2020") [].

(** A visit: two scroll events 50 ms apart, the menu opened, the window
    resized 99 ms after the second scroll. *)
Definition visit_start : list PageEvent :=
  [EvScroll 300 scrolled; EvPass 50].

Definition visit_during : list PageEvent :=
  [EvOperation OpToggleMobileMenu; EvPass 99;
   EvResize 900 [hero_block; about_block; contact_block] scrolled desktop].

(** * Part II: the properties *)

(** ** Facts about class lists *)

#[local] Arguments String.eqb : simpl never.
#[local] Arguments String.append : simpl never.

Lemma contains_true l tok : DOMTokenList.contains l tok = true <-> In tok l.
Proof.
  unfold DOMTokenList.contains. rewrite existsb_exists. split.
  - intros (x & Hx & He). apply String.eqb_eq in He. now subst.
  - intros H. exists tok. split; [exact H | apply String.eqb_refl].
Qed.

Lemma contains_false l tok : DOMTokenList.contains l tok = false <-> ~ In tok l.
Proof.
  rewrite <- contains_true.
  destruct (DOMTokenList.contains l tok); split; congruence.
Qed.

Lemma in_remove l tok t :
  In t (DOMTokenList.remove l tok) <-> In t l /\ t <> tok.
Proof.
  unfold DOMTokenList.remove.
  rewrite filter_In, negb_true_iff, String.eqb_neq.
  split; intros [H1 H2]; split; auto.
Qed.

Lemma contains_remove l tok :
  DOMTokenList.contains (DOMTokenList.remove l tok) tok = false.
Proof. apply contains_false. rewrite in_remove. tauto. Qed.

Lemma contains_add l tok :
  DOMTokenList.contains (DOMTokenList.add l tok) tok = true.
Proof.
  unfold DOMTokenList.add.
  destruct (DOMTokenList.contains l tok) eqn:E; [exact E |].
  apply contains_true, in_or_app. right. now left.
Qed.

Lemma contains_toggle l tok :
  DOMTokenList.contains (DOMTokenList.toggle l tok) tok
  = negb (DOMTokenList.contains l tok).
Proof.
  unfold DOMTokenList.toggle.
  destruct (DOMTokenList.contains l tok) eqn:E; cbn.
  - apply contains_remove.
  - apply contains_true, in_or_app. right. now left.
Qed.

Lemma remove_absent l tok :
  DOMTokenList.contains l tok = false -> DOMTokenList.remove l tok = l.
Proof.
  intros H. apply contains_false in H. unfold DOMTokenList.remove.
  induction l as [|x l IH]; [reflexivity |]. cbn.
  destruct (String.eqb_spec tok x) as [->|Hne]; cbn.
  - exfalso. apply H. now left.
  - f_equal. apply IH. intros Hin. apply H. now right.
Qed.

Lemma remove_idem l tok :
  DOMTokenList.remove (DOMTokenList.remove l tok) tok = DOMTokenList.remove l tok.
Proof. apply remove_absent, contains_remove. Qed.

(** ** Navigation highlighting *)

Lemma lookup_map {X Y} (f : X -> Y) (l : list X) (j : nat) :
  List.map f l !! j = f <$> l !! j.
Proof.
  revert j. induction l as [|x l IH]; intros [|j]; cbn; auto.
Qed.

(** Sections that do not hold the offset leave [current] as it is. *)
Lemma current_unchanged scrollY (rest : list SectionEl) (current : option string) :
  Forall (fun t => in_section_range scrollY t = false) rest ->
  List.fold_left
    (fun current section =>
       if in_section_range scrollY section then sec_id section else current)
    rest current = current.
Proof.
  intros H. revert current.
  induction H as [|t rest Ht _ IH]; intros current; cbn; [reflexivity |].
  rewrite Ht. apply IH.
Qed.

(** The last section whose range holds the offset decides [current]. *)
Lemma current_section_last scrollY before section after :
  in_section_range scrollY section = true ->
  Forall (fun t => in_section_range scrollY t = false) after ->
  current_section scrollY (before ++ section :: after) = sec_id section.
Proof.
  intros Hin Hafter. unfold current_section.
  rewrite fold_left_app. cbn. rewrite Hin. now apply current_unchanged.
Qed.

Lemma current_section_none scrollY sections :
  Forall (fun t => in_section_range scrollY t = false) sections ->
  current_section scrollY sections = Some "".
Proof. apply current_unchanged. Qed.

(** After the second loop a link is active exactly when its [href] is the
    fragment of [current], whatever classes it had before. *)
Lemma is_active_update_link current link :
  is_active (update_link current link)
  = strict_eq (href link) (fragment current).
Proof.
  unfold is_active, update_link. cbn [link_classList href].
  destruct (strict_eq (href link) (fragment current)).
  - apply contains_add.
  - apply contains_remove.
Qed.

Lemma strict_eq_true a b : strict_eq a b = true <-> a = Some b.
Proof.
  destruct a as [s|]; cbn.
  - rewrite String.eqb_eq. split; congruence.
  - split; congruence.
Qed.

Lemma updateActiveNavLink_lookup scrollY sections navLinks j marked :
  updateActiveNavLink scrollY sections navLinks !! j = Some marked ->
  exists link,
    navLinks !! j = Some link /\
    marked = update_link (current_section scrollY sections) link.
Proof.
  unfold updateActiveNavLink. rewrite lookup_map.
  destruct (navLinks !! j) as [link|]; cbn; [|discriminate].
  intros [= <-]. eauto.
Qed.

(** C1. When the scroll offset lies in the range of [section] and of no later
    section (so [section] is the only section whose range holds the offset,
    or the last of several in document order), [current] is the id of
    [section]; after [updateActiveNavLink] a nav-link carries the class
    "active" exactly when its href is the fragment of that id; so, with [k]
    the index of the one link that has this href, exactly one nav-link is
    active, the one at [k]. *)
Theorem updateActiveNavLink_marks_section_link
  (scrollY : Z) (before after : list SectionEl) (section : SectionEl)
  (navLinks : list NavLink) :
  in_section_range scrollY section = true ->
  Forall (fun t => in_section_range scrollY t = false) after ->
  let marked_links :=
    updateActiveNavLink scrollY (before ++ section :: after) navLinks in
  current_section scrollY (before ++ section :: after) = sec_id section /\
  length marked_links = length navLinks /\
  (forall j link,
      navLinks !! j = Some link ->
      exists marked,
        marked_links !! j = Some marked /\
        href marked = href link /\
        (is_active marked = true <->
         href link = Some (fragment (sec_id section)))) /\
  (forall k link,
      navLinks !! k = Some link ->
      href link = Some (fragment (sec_id section)) ->
      (forall j other,
          navLinks !! j = Some other ->
          href other = Some (fragment (sec_id section)) -> j = k) ->
      forall j marked,
        marked_links !! j = Some marked ->
        (is_active marked = true <-> j = k)).
Proof.
  intros Hin Hafter. cbv zeta.
  pose proof (current_section_last scrollY before section after Hin Hafter) as Hcur.
  split; [exact Hcur |]. split.
  { unfold updateActiveNavLink. apply length_map. }
  split.
  - intros j link Hj. eexists. split; [| split].
    + unfold updateActiveNavLink. rewrite lookup_map, Hj. reflexivity.
    + reflexivity.
    + now rewrite is_active_update_link, Hcur, strict_eq_true.
  - intros k link Hk Hhref Honly j marked Hj.
    apply updateActiveNavLink_lookup in Hj as (other & Hother & ->).
    rewrite is_active_update_link, Hcur, strict_eq_true. split.
    + intros H. eapply Honly; eauto.
    + intros ->. congruence.
Qed.

(** At offset 350 the ranges of the first two sections both hold the offset;
    the later one, "about", wins and its link alone is active. *)
Lemma updateActiveNavLink_marks_section_link_witness :
  in_section_range 350 home_section = true /\
  in_section_range 350 about_section = true /\
  in_section_range 350 contact_section = false /\
  current_section 350 [home_section; about_section; contact_section]
  = Some "about" /\
  List.map is_active
    (updateActiveNavLink 350 [home_section; about_section; contact_section]
       [home_link; about_link; contact_link])
  = [false; true; false] /\
  forall j marked,
    updateActiveNavLink 350 [home_section; about_section; contact_section]
      [home_link; about_link; contact_link] !! j = Some marked ->
    (is_active marked = true <-> j = 1%nat).
Proof.
  split; [reflexivity |]. split; [reflexivity |]. split; [reflexivity |].
  split; [reflexivity |]. split; [reflexivity |].
  destruct (updateActiveNavLink_marks_section_link 350
              [home_section] [contact_section] about_section
              [home_link; about_link; contact_link] eq_refl)
    as (_ & _ & _ & H).
  { repeat constructor. }
  apply (H 1%nat about_link eq_refl eq_refl).
  intros [|[|[|j]]] other Hj Hh; cbn in Hj; try discriminate;
    injection Hj as <-; try reflexivity; vm_compute in Hh; discriminate.
Defined.

(** When no section's range holds the offset, [current] stays the empty
    string, and the links left active are exactly those whose href is the
    bare "#". *)
Lemma updateActiveNavLink_no_section scrollY sections navLinks j marked :
  Forall (fun t => in_section_range scrollY t = false) sections ->
  updateActiveNavLink scrollY sections navLinks !! j = Some marked ->
  (is_active marked = true <-> href marked = Some "#").
Proof.
  intros Hnone Hj.
  apply updateActiveNavLink_lookup in Hj as (link & _ & ->).
  rewrite is_active_update_link, (current_section_none _ _ Hnone), strict_eq_true.
  reflexivity.
Qed.

(** So with no link whose href is the bare "#", no link is left active. *)
Lemma updateActiveNavLink_no_section_no_bare_hash scrollY sections navLinks :
  Forall (fun t => in_section_range scrollY t = false) sections ->
  Forall (fun link => href link <> Some "#") navLinks ->
  Forall (fun link => is_active link = false)
    (updateActiveNavLink scrollY sections navLinks).
Proof.
  intros Hnone Hlinks. unfold updateActiveNavLink.
  induction Hlinks as [|link rest Hlink _ IH]; cbn [List.map]; constructor; auto.
  rewrite is_active_update_link, (current_section_none _ _ Hnone).
  destruct (strict_eq (href link) (fragment (Some ""))) eqn:E; [|reflexivity].
  apply strict_eq_true in E. contradiction.
Qed.

(** C2. Below the last section (offset 1200) no section's range holds the
    offset, and yet [updateActiveNavLink] marks a nav-link: the one whose
    href is the bare "#", which is what [`#${current}`] is for the empty
    [current]. *)
Example updateActiveNavLink_marks_bare_hash :
  Forall (fun t => in_section_range 1200 t = false)
    [home_section; about_section; contact_section] /\
  updateActiveNavLink 1200 [home_section; about_section; contact_section]
    [top_link; home_link; about_link; contact_link]
  = [ {| href := Some "#"; link_classList := ["nav-link"; "active"] |};
      {| href := Some "#home"; link_classList := ["nav-link"] |};
      about_link; contact_link ].
Proof. split; [repeat constructor | reflexivity]. Qed.

(** ** The mobile menu *)

Lemma is_expanded_toggle p :
  is_expanded (toggleMobileMenu p) = negb (is_expanded p).
Proof.
  unfold is_expanded, toggleMobileMenu. cbn [aria_expanded].
  destruct (strict_eq (aria_expanded p) "true"); reflexivity.
Qed.

Lemma menu_active_toggle p :
  menu_active (toggleMobileMenu p) = negb (menu_active p).
Proof. apply contains_toggle. Qed.

Lemma toggle_agrees p :
  representations_agree p -> representations_agree (toggleMobileMenu p).
Proof.
  unfold representations_agree. intros H.
  now rewrite is_expanded_toggle, menu_active_toggle, H.
Qed.

Lemma close_closed p : menu_closed (closeMobileMenu p).
Proof.
  unfold menu_closed, menu_active, closeMobileMenu.
  cbn [aria_expanded container_classList body_overflow].
  repeat split. apply contains_remove.
Qed.

Lemma closed_agrees p : menu_closed p -> representations_agree p.
Proof.
  intros (Ha & Hc & _). unfold representations_agree, is_expanded.
  now rewrite Ha, Hc.
Qed.

Lemma close_agrees p : representations_agree (closeMobileMenu p).
Proof. apply closed_agrees, close_closed. Qed.

Lemma anchor_click_agrees doc h p :
  representations_agree p ->
  representations_agree (page_after (anchor_click doc h p)).
Proof.
  intros H. unfold anchor_click.
  destruct (String.eqb h "#"); [exact H |].
  destruct (querySelector doc h); cbn [page_after]; try exact H.
  destruct (navbar_offsetHeight doc); cbn [page_after].
  - destruct (negb (String.eqb h "#home")); apply (close_agrees p).
  - apply close_agrees.
Qed.

Lemma perform_agrees doc op p :
  representations_agree p -> representations_agree (perform doc op p).
Proof.
  intros H. destruct op; cbn [perform].
  - now apply toggle_agrees.
  - apply close_agrees.
  - unfold document_click.
    destruct (negb inContainer && negb inToggle && menu_active p);
      [apply close_agrees | exact H].
  - unfold document_keydown.
    destruct (String.eqb key "Escape" && menu_active p);
      [apply close_agrees | exact H].
  - unfold resize_handler.
    destruct (768 <? innerWidth p); [apply close_agrees | exact H].
  - now apply anchor_click_agrees.
  - exact H.
Qed.

(** C3. From a state in which the aria-expanded attribute and the "active"
    class of the menu container agree, every sequence of the operations that
    touch the menu ([toggleMobileMenu], [closeMobileMenu], the click, keydown
    and resize listeners and the anchor listener) ends in a state in which
    they agree. *)
Theorem operations_preserve_agreement
  (doc : Document) (ops : list Operation) (p : Page) :
  representations_agree p ->
  representations_agree (perform_all doc ops p).
Proof.
  unfold perform_all. revert p.
  induction ops as [|op ops IH]; intros p H; cbn [List.fold_left].
  - exact H.
  - apply IH. now apply perform_agrees.
Qed.

Lemma operations_preserve_agreement_witness :
  representations_agree closed_page /\
  representations_agree
    (perform_all example_document
       [OpToggleMobileMenu; OpDocumentClick true false; OpKeydown "Escape";
        OpToggleMobileMenu; OpSetInnerWidth 900; OpResizeHandler;
        OpToggleMobileMenu; OpAnchorClick "#about"; OpToggleMobileMenu;
        OpDocumentClick false false; OpCloseMobileMenu]
       closed_page).
Proof.
  split; [reflexivity |].
  apply (operations_preserve_agreement example_document _ closed_page).
  reflexivity.
Defined.

(** C4. [closeMobileMenu] is idempotent: from every state, a second call
    changes nothing, and the state after one call (hence after two) has
    aria-expanded "false", no "active" class on the menu container and the
    body's overflow cleared. *)
Theorem closeMobileMenu_idempotent (p : Page) :
  closeMobileMenu (closeMobileMenu p) = closeMobileMenu p /\
  menu_closed (closeMobileMenu p) /\
  menu_closed (closeMobileMenu (closeMobileMenu p)).
Proof.
  split; [| split; apply close_closed].
  unfold closeMobileMenu. cbn [aria_expanded container_classList body_overflow
    innerWidth scroll_requests history_entries].
  now rewrite remove_idem.
Qed.

(** C5 fails for some starting states: when the attribute says expanded and
    the body is not locked, two toggles leave the body locked; and an absent
    attribute comes back as "false". *)
Lemma toggleMobileMenu_twice_counterexample :
  ~ toggle_twice_restores out_of_sync_page /\
  body_overflow (toggleMobileMenu (toggleMobileMenu out_of_sync_page)) = "hidden" /\
  body_overflow out_of_sync_page = "" /\
  ~ toggle_twice_restores unlabelled_page /\
  aria_expanded (toggleMobileMenu (toggleMobileMenu unlabelled_page)) = Some "false" /\
  aria_expanded unlabelled_page = None.
Proof.
  repeat split; try reflexivity.
  - intros (_ & _ & _ & H). vm_compute in H. discriminate.
  - intros (_ & H & _). vm_compute in H. discriminate.
Qed.

(** C5, amended. From every starting state two calls of [toggleMobileMenu]
    give back the expanded boolean and the presence of the "active" class;
    they give back the aria-expanded attribute when it was "true" or
    "false", and the body's overflow when it was in step with the attribute
    ("hidden" when expanded, empty when not). *)
Theorem toggleMobileMenu_twice (p : Page) :
  let q := toggleMobileMenu (toggleMobileMenu p) in
  is_expanded q = is_expanded p /\
  menu_active q = menu_active p /\
  (aria_expanded p = Some "true" \/ aria_expanded p = Some "false" ->
   aria_expanded q = aria_expanded p) /\
  (body_overflow p = (if is_expanded p then "hidden" else "") ->
   body_overflow q = body_overflow p).
Proof.
  cbv zeta. split; [| split; [| split]].
  - rewrite !is_expanded_toggle. apply negb_involutive.
  - rewrite !menu_active_toggle. apply negb_involutive.
  - intros [H | H]; unfold toggleMobileMenu; cbn [aria_expanded]; rewrite H;
      reflexivity.
  - intros H. rewrite H.
    change (body_overflow (toggleMobileMenu (toggleMobileMenu p)))
      with (if is_expanded (toggleMobileMenu p) then "" else "hidden").
    rewrite is_expanded_toggle. now destruct (is_expanded p).
Qed.

Lemma toggleMobileMenu_twice_witness :
  (aria_expanded open_page = Some "true" \/
   aria_expanded open_page = Some "false") /\
  body_overflow open_page = (if is_expanded open_page then "hidden" else "") /\
  toggle_twice_restores open_page.
Proof.
  split; [now left |]. split; [reflexivity |].
  destruct (toggleMobileMenu_twice open_page) as (H1 & H2 & H3 & H4).
  unfold toggle_twice_restores. cbv zeta.
  split; [exact H1 |]. split; [apply H3; now left |].
  split; [exact H2 |]. apply H4. reflexivity.
Defined.

(** ** In-page anchors *)

(** C7. The click listener of an in-page anchor: on href "#" it returns at
    once, leaving the page as it was (no scroll request, no history entry)
    and the default action alone; on "#home" with its target in the document
    it asks for a scroll to the target's offsetTop minus the navbar's height
    and pushes no history entry; on any other href whose target is in the
    document it asks for the same scroll and pushes the href as the new
    URL. In the last two cases the default navigation is prevented. *)
Theorem anchor_click_cases (doc : Document) (p : Page) :
  anchor_click doc "#" p
  = {| page_after := p; defaultPrevented := false; threw := false |} /\
  (forall targetTop headerHeight,
      querySelector doc "#home" = Found targetTop ->
      navbar_offsetHeight doc = Some headerHeight ->
      let out := anchor_click doc "#home" p in
      scroll_requests (page_after out)
      = scroll_requests p ++ [targetTop - headerHeight] /\
      history_entries (page_after out) = history_entries p /\
      defaultPrevented out = true /\ threw out = false) /\
  (forall h targetTop headerHeight,
      h <> "#" -> h <> "#home" ->
      querySelector doc h = Found targetTop ->
      navbar_offsetHeight doc = Some headerHeight ->
      let out := anchor_click doc h p in
      scroll_requests (page_after out)
      = scroll_requests p ++ [targetTop - headerHeight] /\
      history_entries (page_after out) = history_entries p ++ [h] /\
      defaultPrevented out = true /\ threw out = false).
Proof.
  split; [reflexivity |]. split.
  - intros targetTop headerHeight Hq Hn. unfold anchor_click.
    change (String.eqb "#home" "#") with false.
    change (String.eqb "#home" "#home") with true.
    rewrite Hq, Hn. cbn. auto.
  - intros h targetTop headerHeight H1 H2 Hq Hn. unfold anchor_click.
    apply String.eqb_neq in H1, H2. rewrite H1, H2, Hq, Hn. cbn. auto.
Qed.

Lemma anchor_click_cases_witness :
  querySelector example_document "#home" = Found 0 /\
  querySelector example_document "#about" = Found 400 /\
  navbar_offsetHeight example_document = Some 70 /\
  page_after (anchor_click example_document "#" open_page) = open_page /\
  scroll_requests (page_after (anchor_click example_document "#home" open_page))
  = [-70] /\
  history_entries (page_after (anchor_click example_document "#home" open_page))
  = [] /\
  scroll_requests (page_after (anchor_click example_document "#about" open_page))
  = [330] /\
  history_entries (page_after (anchor_click example_document "#about" open_page))
  = ["#about"].
Proof.
  destruct (anchor_click_cases example_document open_page) as (H0 & Hhome & Hother).
  destruct (Hhome 0 70 eq_refl eq_refl) as (Hs & Hh & _).
  destruct (Hother "#about" 400 70 ltac:(discriminate) ltac:(discriminate)
              eq_refl eq_refl) as (Hs' & Hh' & _).
  split; [reflexivity |]. split; [reflexivity |]. split; [reflexivity |].
  split; [now rewrite H0 |].
  split; [exact Hs |]. split; [exact Hh |]. split; [exact Hs' | exact Hh'].
Defined.

(** C10. A click on an anchor whose href is not the bare "#" and whose
    target is not in the document (the selector matches nothing, or is no
    valid selector) prevents the default navigation and leaves the page as
    it was: no scroll request, no history entry, and the menu's attribute,
    class and scroll lock untouched. *)
Theorem anchor_click_missing_target (doc : Document) (h : string) (p : Page) :
  h <> "#" ->
  (forall targetTop, querySelector doc h <> Found targetTop) ->
  page_after (anchor_click doc h p) = p /\
  defaultPrevented (anchor_click doc h p) = true.
Proof.
  intros Hh Hq. unfold anchor_click.
  apply String.eqb_neq in Hh. rewrite Hh.
  destruct (querySelector doc h) as [targetTop| |] eqn:E.
  - exfalso. now apply (Hq targetTop).
  - split; reflexivity.
  - split; reflexivity.
Qed.

Lemma anchor_click_missing_target_witness :
  "#skills" <> "#" /\
  querySelector example_document "#skills" = NoMatch /\
  page_after (anchor_click example_document "#skills" open_page) = open_page /\
  defaultPrevented (anchor_click example_document "#skills" open_page) = true.
Proof.
  split; [discriminate |]. split; [reflexivity |].
  apply (anchor_click_missing_target example_document "#skills" open_page).
  - discriminate.
  - intros targetTop. discriminate.
Defined.

(** ** debounce *)

Section DebounceFacts.

Context {A W : Type} (func : A -> W -> W) (wait : Z).

Implicit Types (s : Debounced A W) (t : Timer A) (trace : list (Event A W)).

Lemma next_due_nil (now0 : Z) : next_due now0 (@nil (Timer A)) = None.
Proof. reflexivity. Qed.

Lemma next_due_single (now0 : Z) t :
  next_due now0 [t] = if timer_due t <=? now0 then Some t else None.
Proof.
  unfold next_due. cbn. now destruct (timer_due t <=? now0).
Qed.

Lemma clearTimeout_own t :
  clearTimeout (Some (timer_id t)) [t] = [].
Proof. cbn. now rewrite Nat.eqb_refl. Qed.

(** The pending timer, if there is one, is the one that [timeout] names, so
    clearing [timeout] empties the table. *)
Lemma clearTimeout_single_pending s :
  single_pending s -> clearTimeout (timeout s) (timers s) = [].
Proof.
  intros [H | (t & Ht & Hh)].
  - rewrite H. now destruct (timeout s).
  - rewrite Ht, Hh. apply clearTimeout_own.
Qed.

(** A call cancels what is pending and sets one timer for the full wait. *)
Lemma executedFunction_timers args s :
  single_pending s ->
  timers (executedFunction wait args s)
  = [{| timer_id := next_handle s;
        timer_due := now s + Z.max 0 wait;
        timer_callback := args |}].
Proof.
  intros H. unfold executedFunction, setTimeout. cbn [timers].
  now rewrite (clearTimeout_single_pending s H).
Qed.

Lemma executedFunction_single_pending args s :
  single_pending s -> single_pending (executedFunction wait args s).
Proof.
  intros H. right. eexists. split.
  - now apply executedFunction_timers.
  - reflexivity.
Qed.

(** Time passes with nothing pending. *)
Lemma elapse_idle d s :
  timers s = [] -> elapse func d s = tick d s.
Proof. intros H. unfold elapse. now rewrite H. Qed.

(** Time passes and the pending timer is not due yet. *)
Lemma elapse_early d s t :
  timers s = [t] ->
  now s + Z.max 0 d < timer_due t ->
  elapse func d s = tick d s.
Proof.
  intros H Hlt. unfold elapse. rewrite H. cbn [length run_due].
  cbn [tick now timers]. rewrite H, next_due_single.
  destruct (Z.leb_spec (timer_due t) (now s + Z.max 0 d)); [lia | reflexivity].
Qed.

(** Time passes and the pending timer is due: [func] runs once, with the
    arguments the timer holds, and nothing stays pending. *)
Lemma elapse_due d s t :
  timers s = [t] ->
  timeout s = Some (timer_id t) ->
  timer_due t <= now s + Z.max 0 d ->
  elapse func d s
  = {| now := now s + Z.max 0 d;
       next_handle := next_handle s;
       timers := [];
       timeout := timeout s;
       world := func (timer_callback t) (world s);
       executions := executions s ++ [(now s + Z.max 0 d, timer_callback t)] |}.
Proof.
  intros H Hh Hle. unfold elapse. rewrite H. cbn [length run_due].
  cbn [tick now timers]. rewrite H, next_due_single.
  destruct (Z.leb_spec (timer_due t) (now s + Z.max 0 d)); [| lia].
  unfold fire, later, tick.
  cbn [now next_handle timers timeout world executions].
  rewrite H, clearTimeout_own. now destruct (timeout s).
Qed.

Lemma elapse_single_pending d s :
  single_pending s -> single_pending (elapse func d s).
Proof.
  intros [H | (t & Ht & Hh)].
  - rewrite (elapse_idle d s H). now left.
  - destruct (Z.le_gt_cases (timer_due t) (now s + Z.max 0 d)) as [Hle | Hgt].
    + rewrite (elapse_due d s t Ht Hh Hle). now left.
    + rewrite (elapse_early d s t Ht Hgt). right. now exists t.
Qed.

Lemma step_single_pending s e :
  single_pending s -> single_pending (step func wait s e).
Proof.
  intros H. destruct e as [args | d | f]; cbn [step].
  - now apply executedFunction_single_pending.
  - now apply elapse_single_pending.
  - exact H.
Qed.

Lemma run_single_pending trace s :
  single_pending s -> single_pending (run func wait trace s).
Proof.
  unfold run. revert s.
  induction trace as [|e trace IH]; intros s H; cbn [List.fold_left]; auto.
  apply IH. now apply step_single_pending.
Qed.

Lemma debounce_single_pending (w : W) : single_pending (debounce (A := A) w).
Proof. now left. Qed.

Lemma run_app trace1 trace2 s :
  run func wait (trace1 ++ trace2) s
  = run func wait trace2 (run func wait trace1 s).
Proof. unfold run. apply fold_left_app. Qed.

(** *** Traces *)

Lemma duration_from (acc : Z) trace :
  List.fold_left
    (fun acc e => match e with Elapse d => acc + Z.max 0 d | _ => acc end)
    trace acc
  = acc + duration trace.
Proof.
  unfold duration. revert acc.
  induction trace as [|e trace IH]; intros acc; cbn [List.fold_left]; [lia |].
  rewrite IH, (IH (match e with Elapse d => 0 + Z.max 0 d | _ => 0 end)).
  destruct e; lia.
Qed.

Lemma duration_cons e trace :
  duration (e :: trace)
  = match e with Elapse d => Z.max 0 d | _ => 0 end + duration trace.
Proof.
  unfold duration at 1. cbn [List.fold_left]. rewrite duration_from.
  destruct e; lia.
Qed.

Lemma duration_app trace1 trace2 :
  duration (trace1 ++ trace2) = duration trace1 + duration trace2.
Proof.
  induction trace1 as [|e trace1 IH]; [reflexivity |].
  rewrite <- app_comm_cons, !duration_cons, IH. lia.
Qed.

Lemma duration_nonneg trace : 0 <= duration trace.
Proof.
  induction trace as [|e trace IH]; [reflexivity |].
  rewrite duration_cons. destruct e; lia.
Qed.

Lemma quiet_app trace1 trace2 :
  quiet (trace1 ++ trace2) = quiet trace1 && quiet trace2.
Proof. apply forallb_app. Qed.

(** With nothing pending, a stretch without calls runs nothing. *)
Lemma run_quiet_idle tail s :
  timers s = [] ->
  quiet tail = true ->
  timers (run func wait tail s) = [] /\
  executions (run func wait tail s) = executions s /\
  now (run func wait tail s) = now s + duration tail.
Proof.
  revert s. induction tail as [|e tail IH]; intros s Hs Hq.
  - cbn. repeat split; auto. unfold duration. cbn. lia.
  - cbn [quiet forallb] in Hq. apply andb_prop in Hq as [He Hq].
    rewrite duration_cons. change (run func wait (e :: tail) s)
      with (run func wait tail (step func wait s e)).
    destruct e as [args | d | f]; [discriminate | |]; cbn [step].
    + rewrite (elapse_idle d s Hs).
      destruct (IH (tick d s) Hs Hq) as (H1 & H2 & H3).
      rewrite H1, H2, H3. cbn [tick now executions]. repeat split; lia.
    + destruct (IH (outside f s) Hs Hq) as (H1 & H2 & H3).
      rewrite H1, H2, H3. cbn [outside now executions]. repeat split; lia.
Qed.

(** With one timer pending, a stretch without calls runs [func] at most
    once: when the timer is due, with the arguments it holds. *)
Lemma run_quiet_pending tail s t :
  timers s = [t] ->
  timeout s = Some (timer_id t) ->
  quiet tail = true ->
  now (run func wait tail s) = now s + duration tail /\
  ((timers (run func wait tail s) = [t] /\
    timeout (run func wait tail s) = Some (timer_id t) /\
    executions (run func wait tail s) = executions s) \/
   (timers (run func wait tail s) = [] /\
    exists at_time,
      executions (run func wait tail s)
      = executions s ++ [(at_time, timer_callback t)] /\
      timer_due t <= at_time <= now s + duration tail)).
Proof.
  revert s. induction tail as [|e tail IH]; intros s Hs Hh Hq.
  - cbn. split; [unfold duration; cbn; lia |]. left. auto.
  - cbn [quiet forallb] in Hq. apply andb_prop in Hq as [He Hq].
    rewrite duration_cons. change (run func wait (e :: tail) s)
      with (run func wait tail (step func wait s e)).
    pose proof (duration_nonneg tail) as Hnn.
    destruct e as [args | d | f]; [discriminate | |]; cbn [step].
    + destruct (Z.le_gt_cases (timer_due t) (now s + Z.max 0 d)) as [Hle | Hgt].
      * rewrite (elapse_due d s t Hs Hh Hle).
        match goal with |- context [run func wait tail ?s1] =>
          destruct (run_quiet_idle tail s1 eq_refl Hq) as (H1 & H2 & H3)
        end.
        rewrite H1, H2, H3. cbn [now executions].
        split; [lia |]. right. split; [reflexivity |].
        eexists. split; [reflexivity | lia].
      * rewrite (elapse_early d s t Hs Hgt).
        destruct (IH (tick d s) Hs Hh Hq) as (H1 & H2).
        rewrite H1. cbn [tick now executions] in *. split; [lia |].
        destruct H2 as [H2 | (H2 & at_time & H3 & H4)]; [left; exact H2 |].
        right. split; [exact H2 |]. exists at_time. split; [exact H3 | lia].
    + destruct (IH (outside f s) Hs Hh Hq) as (H1 & H2).
      rewrite H1. cbn [outside now executions] in *. split; [lia |].
      destruct H2 as [H2 | (H2 & at_time & H3 & H4)]; [left; exact H2 |].
      right. split; [exact H2 |]. exists at_time. split; [exact H3 | lia].
Qed.

(** A stretch without calls runs [func] at most once. *)
Lemma run_quiet_at_most_once tail s :
  single_pending s ->
  quiet tail = true ->
  (length (executions (run func wait tail s)) <= S (length (executions s)))%nat.
Proof.
  intros [H | (t & Ht & Hh)] Hq.
  - destruct (run_quiet_idle tail s H Hq) as (_ & -> & _). lia.
  - destruct (run_quiet_pending tail s t Ht Hh Hq)
      as (_ & [(_ & _ & ->) | (_ & at_time & -> & _)]).
    + lia.
    + rewrite length_app. cbn. lia.
Qed.

(** Where a pending timer and every run of [func] come from: a call, followed
    by a stretch without calls that lasted at least the wait. *)
Lemma run_explained (w : W) trace :
  let s := run func wait trace (debounce w) in
  now s = duration trace /\
  (forall t, timers s = [t] ->
     exists pre mid,
       trace = pre ++ Call (timer_callback t) :: mid /\
       quiet mid = true /\
       timer_due t = duration pre + Z.max 0 wait) /\
  (forall at_time args, In (at_time, args) (executions s) ->
     exists pre mid post,
       trace = pre ++ Call args :: mid ++ post /\
       quiet mid = true /\
       at_time = duration pre + duration mid /\
       duration pre + Z.max 0 wait <= at_time).
Proof.
  cbv zeta. induction trace as [|e trace IH] using rev_ind.
  - cbn. split; [reflexivity |]. split; [discriminate | contradiction].
  - rewrite run_app. cbn [run List.fold_left].
    fold (run func wait trace (debounce w)).
    set (s := run func wait trace (debounce w)) in *.
    assert (Hsp : single_pending s)
      by apply run_single_pending, debounce_single_pending.
    destruct IH as (Hnow & Hpend & Hexec).
    rewrite duration_app, duration_cons.
    assert (Hkeep : forall at_time args,
               In (at_time, args) (executions s) ->
               exists pre mid post,
                 trace ++ [e] = pre ++ Call args :: mid ++ post /\
                 quiet mid = true /\
                 at_time = duration pre + duration mid /\
                 duration pre + Z.max 0 wait <= at_time).
    { intros at_time args Hin.
      destruct (Hexec at_time args Hin) as (pre & mid & post & -> & Hq & Ht & Hw).
      exists pre, mid, (post ++ [e]). repeat split; auto.
      now rewrite <- !app_assoc, <- !app_comm_cons, <- app_assoc. }
    destruct e as [args | d | f]; cbn [step].
    + split; [cbn [executedFunction now]; unfold duration at 2; cbn; lia |].
      split; [| exact Hkeep].
      intros t Ht. rewrite (executedFunction_timers args s Hsp) in Ht.
      injection Ht as <-. cbn [timer_callback timer_due].
      exists trace, []. repeat split. lia.
    + destruct Hsp as [Hidle | (t & Ht & Hh)].
      * rewrite (elapse_idle d s Hidle). cbn [tick now timers executions].
        split; [unfold duration at 2; cbn; lia |].
        split; [rewrite Hidle; discriminate | exact Hkeep].
      * destruct (Z.le_gt_cases (timer_due t) (now s + Z.max 0 d)) as [Hle | Hgt].
        -- rewrite (elapse_due d s t Ht Hh Hle). cbn [now timers executions].
           split; [unfold duration at 2; cbn; lia |].
           split; [discriminate |].
           intros at_time args Hin. apply in_app_or in Hin as [Hin | Hin];
             [now apply Hkeep |].
           destruct Hin as [[= <- <-] | []].
           destruct (Hpend t Ht) as (pre & mid & -> & Hq & Hdue).
           assert (Hd : duration (pre ++ Call (timer_callback t) :: mid)
                        = duration pre + duration mid)
             by (rewrite duration_app, duration_cons; lia).
           assert (Hd' : duration (mid ++ [Elapse d])
                         = duration mid + Z.max 0 d)
             by (rewrite duration_app, duration_cons; unfold duration at 2;
                 cbn; lia).
           exists pre, (mid ++ [Elapse d]), []. rewrite app_nil_r.
           rewrite quiet_app, Hq, Hd'. rewrite Hd in Hnow.
           repeat split.
           ++ now rewrite <- app_assoc, <- app_comm_cons.
           ++ lia.
           ++ lia.
        -- rewrite (elapse_early d s t Ht Hgt). cbn [tick now timers executions].
           split; [unfold duration at 2; cbn; lia |].
           split; [| exact Hkeep].
           intros t' Ht'. rewrite Ht in Ht'. injection Ht' as <-.
           destruct (Hpend t Ht) as (pre & mid & -> & Hq & Hdue).
           exists pre, (mid ++ [Elapse d]). rewrite quiet_app, Hq.
           repeat split; auto.
           now rewrite <- app_assoc, <- app_comm_cons.
    + cbn [outside now timers executions].
      split; [unfold duration at 2; cbn; lia |].
      split; [| exact Hkeep].
      intros t Ht. destruct (Hpend t Ht) as (pre & mid & -> & Hq & Hdue).
      exists pre, (mid ++ [Outside f]). rewrite quiet_app, Hq.
      repeat split; auto.
      now rewrite <- app_assoc, <- app_comm_cons.
Qed.

(** C9. The function that [debounce(func, wait)] returns, from its creation
    through any sequence of calls, passing time and other code:
    - a call cancels what is pending and leaves exactly one timer, set for
      the full wait from now and holding the arguments of this call;
    - over a stretch without calls [func] runs at most once;
    - every run of [func] goes back to a call that was followed by a
      stretch without calls lasting at least the wait, up to the run, and
      [func] gets the arguments of that call, the most recent one;
    - and after a call, once the calls have stopped for the wait and the
      event loop runs, [func] does run, once, with the arguments of that
      call. *)
Theorem debounce_trailing_edge (w : W) (trace : list (Event A W)) :
  let s := run func wait trace (debounce w) in
  (forall args,
      timers (executedFunction wait args s)
      = [{| timer_id := next_handle s;
            timer_due := now s + Z.max 0 wait;
            timer_callback := args |}]) /\
  (forall tail,
      quiet tail = true ->
      (length (executions (run func wait tail s))
       <= S (length (executions s)))%nat) /\
  (forall at_time args,
      In (at_time, args) (executions s) ->
      exists pre mid post,
        trace = pre ++ Call args :: mid ++ post /\
        quiet mid = true /\
        at_time = duration pre + duration mid /\
        duration pre + Z.max 0 wait <= at_time) /\
  (forall args tail d,
      quiet tail = true ->
      Z.max 0 wait <= duration tail + Z.max 0 d ->
      exists at_time,
        executions (run func wait (Call args :: tail ++ [Elapse d]) s)
        = executions s ++ [(at_time, args)] /\
        now s + Z.max 0 wait <= at_time <= now s + duration tail + Z.max 0 d).
Proof.
  cbv zeta. set (s := run func wait trace (debounce w)).
  assert (Hsp : single_pending s)
    by apply run_single_pending, debounce_single_pending.
  split; [| split; [| split]].
  - intros args. now apply executedFunction_timers.
  - intros tail Hq. now apply run_quiet_at_most_once.
  - apply (run_explained w trace).
  - intros args tail d Hq Hlong.
    change (run func wait (Call args :: tail ++ [Elapse d]) s)
      with (run func wait (tail ++ [Elapse d]) (executedFunction wait args s)).
    rewrite run_app.
    set (s1 := executedFunction wait args s).
    pose proof (executedFunction_timers args s Hsp) as Ht1. fold s1 in Ht1.
    set (t := {| timer_id := next_handle s;
                 timer_due := now s + Z.max 0 wait;
                 timer_callback := args |}) in *.
    destruct (run_quiet_pending tail s1 t Ht1 eq_refl Hq) as (Hnow & Hcases).
    set (s2 := run func wait tail s1) in *.
    change (now s1) with (now s) in *. change (executions s1) with (executions s) in *.
    cbn [run List.fold_left step].
    destruct Hcases as [(Ht2 & Hh2 & He2) | (Ht2 & at_time & He2 & Hat)].
    + rewrite (elapse_due d s2 t Ht2 Hh2); [| cbn [t timer_due]; lia].
      cbn [executions]. rewrite He2. eexists. split; [reflexivity |].
      cbn [t timer_due] in *. lia.
    + rewrite (elapse_idle d s2 Ht2). cbn [tick executions]. rewrite He2.
      exists at_time. split; [reflexivity |]. cbn [t timer_due] in *. lia.
Qed.

End DebounceFacts.

Lemma debounce_trailing_edge_witness :
  executions (run record_call 100 sample_calls (debounce []))
  = [(150, "b"); (750, "c")] /\
  world (run record_call 100 sample_calls (debounce [])) = ["b"; "c"] /\
  quiet [@Elapse string (list string) 40; Elapse 60] = true /\
  Z.max 0 100 <= duration [@Elapse string (list string) 40; Elapse 60] + Z.max 0 0 /\
  exists at_time,
    executions
      (run record_call 100 (Call "d" :: [Elapse 40; Elapse 60] ++ [Elapse 0])
         (run record_call 100 sample_calls (debounce [])))
    = executions (run record_call 100 sample_calls (debounce []))
      ++ [(at_time, "d")] /\
    now (run record_call 100 sample_calls (debounce [])) + Z.max 0 100
    <= at_time
    <= now (run record_call 100 sample_calls (debounce []))
       + duration [@Elapse string (list string) 40; Elapse 60] + Z.max 0 0.
Proof.
  split; [reflexivity |]. split; [reflexivity |]. split; [reflexivity |].
  split; [vm_compute; discriminate |].
  destruct (debounce_trailing_edge record_call 100 [] sample_calls)
    as (_ & _ & _ & H).
  apply (H "d" [Elapse 40; Elapse 60] 0).
  - reflexivity.
  - vm_compute. discriminate.
Defined.

(** ** The debounced resize listener *)

(** While the timer of the last resize is not due, events that are no resize
    leave it pending, run nothing and keep the width. *)
Lemma run_resize_waiting (during : list (Event unit Page))
  (s : Debounced unit Page) (t : Timer unit) :
  timers s = [t] ->
  timeout s = Some (timer_id t) ->
  Forall keeps_width during ->
  now s + duration during < timer_due t ->
  timers (run_resize during s) = [t] /\
  timeout (run_resize during s) = Some (timer_id t) /\
  executions (run_resize during s) = executions s /\
  now (run_resize during s) = now s + duration during /\
  innerWidth (world (run_resize during s)) = innerWidth (world s).
Proof.
  intros Ht Hh Hkeep. revert s Ht Hh.
  induction Hkeep as [|e during He _ IH]; intros s Ht Hh Hlt.
  - cbn. repeat split; auto. unfold duration. cbn. lia.
  - rewrite duration_cons in *. pose proof (duration_nonneg during) as Hnn.
    change (run_resize (e :: during) s)
      with (run_resize during (step resize_func resize_wait s e)).
    destruct e as [args | d | f]; [contradiction | |]; cbn [step].
    + rewrite (elapse_early resize_func d s t Ht) by lia.
      destruct (IH (tick d s) Ht Hh) as (H1 & H2 & H3 & H4 & H5);
        [cbn [tick now]; lia |].
      rewrite H1, H2, H3, H4, H5. cbn [tick now executions world].
      repeat split; lia.
    + destruct (IH (outside f s) Ht Hh) as (H1 & H2 & H3 & H4 & H5);
        [cbn [outside now]; lia |].
      rewrite H1, H2, H3, H4, H5. cbn [outside now executions world].
      repeat split; try lia. apply He.
Qed.

(** C8. After any history, a resize event that leaves the window wider than
    768 pixels, followed by less than 250 milliseconds in which the window
    is not resized again (time passes, other code opens or closes the
    menu), has not run the debounced listener yet; once 250 milliseconds
    without a resize have passed, the listener has run once, it has called
    [closeMobileMenu], and the menu is closed. *)
Theorem resize_closes_menu (before during : list (Event unit Page))
  (p0 : Page) (w d : Z) :
  768 < w ->
  Forall keeps_width during ->
  duration during < 250 ->
  250 <= duration during + Z.max 0 d ->
  let start := run_resize before (debounce p0) in
  let waiting := run_resize (before ++ resize_event w ++ during) (debounce p0) in
  let settled :=
    run_resize (before ++ resize_event w ++ during ++ [Elapse d]) (debounce p0) in
  executions waiting = executions start /\
  timers waiting
  = [{| timer_id := next_handle start;
        timer_due := now start + 250;
        timer_callback := tt |}] /\
  world settled = closeMobileMenu (world waiting) /\
  menu_closed (world settled) /\
  timers settled = [] /\
  executions settled
  = executions start ++ [(now start + duration during + Z.max 0 d, tt)].
Proof.
  intros Hw Hkeep Hshort Hlong. cbv zeta. unfold run_resize.
  rewrite !run_app.
  set (s0 := run resize_func resize_wait before (debounce p0)).
  assert (Hsp : single_pending s0)
    by apply run_single_pending, debounce_single_pending.
  change (run resize_func resize_wait (resize_event w) s0)
    with (executedFunction resize_wait tt (outside (set_innerWidth w) s0)).
  set (s1 := executedFunction resize_wait tt (outside (set_innerWidth w) s0)).
  set (t := {| timer_id := next_handle s0;
               timer_due := now s0 + 250;
               timer_callback := tt |}).
  assert (Ht1 : timers s1 = [t]).
  { unfold s1. now rewrite executedFunction_timers. }
  destruct (run_resize_waiting during s1 t Ht1 eq_refl Hkeep)
    as (Htimers & Htimeout & Hexec & Hnow & Hwidth);
    [cbn [s1 executedFunction outside now t timer_due]; lia |].
  unfold run_resize in *.
  set (s2 := run resize_func resize_wait during s1) in *.
  change (now s1) with (now s0) in Hnow.
  change (executions s1) with (executions s0) in Hexec.
  change (innerWidth (world s1)) with w in Hwidth.
  split; [exact Hexec |]. split; [exact Htimers |].
  cbn [run List.fold_left step].
  rewrite (elapse_due resize_func d s2 t Htimers Htimeout)
    by (cbn [t timer_due]; lia).
  cbn [world timers executions]. change (timer_callback t) with tt.
  assert (Hclose : resize_func tt (world s2) = closeMobileMenu (world s2)).
  { unfold resize_func, resize_handler. rewrite Hwidth.
    destruct (Z.ltb_spec 768 w); [reflexivity | lia]. }
  rewrite Hclose, Hexec, Hnow.
  split; [reflexivity |]. split; [apply close_closed |].
  split; [reflexivity |]. do 3 f_equal.
Qed.

(** A phone is turned with its menu open: 600 pixels, by way of 700, to 900. *)
Lemma resize_closes_menu_witness :
  768 < 900 /\
  Forall keeps_width settling /\
  duration settling < 250 /\
  250 <= duration settling + Z.max 0 1 /\
  menu_active (world (run_resize rotation (debounce closed_page))) = true /\
  innerWidth (world (run_resize rotation (debounce closed_page))) = 700 /\
  menu_active
    (world
       (run_resize (rotation ++ resize_event 900 ++ settling)
          (debounce closed_page))) = true /\
  menu_closed
    (world
       (run_resize (rotation ++ resize_event 900 ++ settling ++ [Elapse 1])
          (debounce closed_page))) /\
  executions
    (run_resize (rotation ++ resize_event 900 ++ settling ++ [Elapse 1])
       (debounce closed_page))
  = [(350, tt)].
Proof.
  assert (Hkeep : Forall keeps_width settling)
    by (repeat constructor).
  split; [lia |]. split; [exact Hkeep |].
  split; [vm_compute; reflexivity |]. split; [vm_compute; discriminate |].
  split; [reflexivity |]. split; [reflexivity |]. split; [reflexivity |].
  destruct (resize_closes_menu rotation settling closed_page 900 1) as
    (_ & _ & _ & Hclosed & _ & Hexec).
  - lia.
  - exact Hkeep.
  - vm_compute. reflexivity.
  - vm_compute. discriminate.
  - split; [exact Hclosed | exact Hexec].
Defined.

(** ** Reveal animation *)

Lemma is_animated_start element : is_animated (start_animation element) = true.
Proof. apply contains_add. Qed.

Lemma is_animated_finish element :
  is_animated (finish_animation element) = is_animated element.
Proof. reflexivity. Qed.

(** What one turn of the loop of [animateOnScroll] does. *)
Lemma animate_element_cases (s : Stage) (i : nat) :
  animate_element s i = s \/
  exists element,
    elements s !! i = Some element /\
    is_animated element = false /\
    isInViewport (viewport s) element = true /\
    animate_element s i
    = {| clock := clock s;
         fresh_handle := S (fresh_handle s);
         pending := setTimeout (clock s) (fresh_handle s) i 100 (pending s);
         elements := <[i := start_animation element]> (elements s);
         viewport := viewport s;
         animations := animations s ++ [i] |}.
Proof.
  unfold animate_element.
  destruct (elements s !! i) as [element|] eqn:E; [| now left].
  fold (is_animated element).
  destruct (isInViewport (viewport s) element) eqn:Hv; [| now left].
  destruct (is_animated element) eqn:Ha; [now left |].
  right. exists element. auto.
Qed.

(** A state change that sets no timer and keeps the markers keeps the
    invariant. *)
Lemma animated_once_kept (s s' : Stage) :
  animations s' = animations s ->
  (forall i element,
      elements s !! i = Some element -> is_animated element = true ->
      exists element',
        elements s' !! i = Some element' /\ is_animated element' = true) ->
  animated_once s -> animated_once s'.
Proof.
  intros Hsame Hkeep [Hnodup Hmarked]. split.
  - now rewrite Hsame.
  - intros i Hi. rewrite Hsame in Hi.
    destruct (Hmarked i Hi) as (element & He & Ha). eauto.
Qed.

Lemma animate_element_once (s : Stage) (i : nat) :
  animated_once s -> animated_once (animate_element s i).
Proof.
  intros Hinv.
  destruct (animate_element_cases s i) as [-> | (element & He & Ha & _ & ->)];
    [exact Hinv |].
  destruct Hinv as [Hnodup Hmarked].
  assert (Hfresh : ~ In i (animations s)).
  { intros Hi. destruct (Hmarked i Hi) as (other & Ho & Hoa). congruence. }
  split; cbn [animations elements].
  - apply NoDup_ListNoDup. apply NoDup_ListNoDup in Hnodup.
    apply List.NoDup_app; repeat split; auto.
    + repeat constructor. intros [].
    + intros x Hx [<- | []]. contradiction.
  - intros j Hj. cbn [animations elements] in *.
    apply in_app_or in Hj as [Hj | [<- | []]].
    + destruct (Nat.eq_dec i j) as [<- | Hne]; [contradiction |].
      rewrite list_lookup_insert_ne by exact Hne. now apply Hmarked.
    + exists (start_animation element). split; [| apply is_animated_start].
      apply list_lookup_insert_eq. now apply lookup_lt_Some in He.
Qed.

Lemma animateOnScroll_once (s : Stage) :
  animated_once s -> animated_once (animateOnScroll s).
Proof.
  unfold animateOnScroll. generalize (seq 0 (length (elements s))).
  intros indices. revert s.
  induction indices as [|i indices IH]; intros s H; cbn [List.fold_left]; auto.
  apply IH. now apply animate_element_once.
Qed.

Lemma fire_animation_once (t : Timer nat) (s : Stage) :
  animated_once s -> animated_once (fire_animation t s).
Proof.
  apply animated_once_kept; [reflexivity |].
  intros i element He Ha. unfold fire_animation. cbn [elements].
  destruct (elements s !! timer_callback t) as [target|] eqn:Et; [| eauto].
  destruct (Nat.eq_dec (timer_callback t) i) as [<- | Hne].
  - exists (finish_animation target). split.
    + apply list_lookup_insert_eq. now apply lookup_lt_Some in Et.
    + rewrite is_animated_finish. congruence.
  - rewrite list_lookup_insert_ne by exact Hne. eauto.
Qed.

Lemma run_animations_once (fuel : nat) (s : Stage) :
  animated_once s -> animated_once (run_animations fuel s).
Proof.
  revert s. induction fuel as [|fuel IH]; intros s H; cbn [run_animations]; auto.
  destruct (next_due (clock s) (pending s)); auto.
  apply IH. now apply fire_animation_once.
Qed.

Lemma wait_for_once (d : Z) (s : Stage) :
  animated_once s -> animated_once (wait_for d s).
Proof. intros H. unfold wait_for. apply run_animations_once. exact H. Qed.

Lemma relayout_once rects vp (s : Stage) :
  animated_once s -> animated_once (relayout rects vp s).
Proof.
  apply animated_once_kept; [reflexivity |].
  intros i element He Ha. unfold relayout. cbn [elements].
  rewrite list_lookup_imap, He. cbn. eauto.
Qed.

Lemma play_once (trace : list StageEvent) (s : Stage) :
  animated_once s -> animated_once (play trace s).
Proof.
  unfold play. revert s.
  induction trace as [|e trace IH]; intros s H; cbn [List.fold_left]; auto.
  apply IH. destruct e; cbn [stage_step].
  - now apply animateOnScroll_once.
  - now apply wait_for_once.
  - now apply relayout_once.
Qed.

Lemma loaded_once els vp : animated_once (loaded els vp).
Proof. split; [constructor | intros i []]. Qed.

(** An element that carries the marker is skipped: one turn of the loop, for
    any index, leaves it and its timers alone. *)
Lemma animate_element_skips (s : Stage) (j i : nat) (element : Element) :
  elements s !! i = Some element ->
  is_animated element = true ->
  elements (animate_element s j) !! i = Some element /\
  timers_of i (pending (animate_element s j)) = timers_of i (pending s) /\
  count_occ Nat.eq_dec (animations (animate_element s j)) i
  = count_occ Nat.eq_dec (animations s) i.
Proof.
  intros He Ha.
  destruct (animate_element_cases s j) as [-> | (other & Ho & Hoa & _ & ->)];
    [auto |].
  assert (Hne : j <> i) by (intros ->; congruence).
  cbn [elements pending animations]. split; [| split].
  - now rewrite list_lookup_insert_ne.
  - unfold timers_of, setTimeout. rewrite List.filter_app. cbn [List.filter timer_callback].
    apply Nat.eqb_neq in Hne. rewrite Hne. apply app_nil_r.
  - rewrite count_occ_app. cbn [count_occ].
    destruct (Nat.eq_dec j i); [contradiction | lia].
Qed.

Lemma animateOnScroll_skips (s : Stage) (i : nat) (element : Element) :
  elements s !! i = Some element ->
  is_animated element = true ->
  elements (animateOnScroll s) !! i = Some element /\
  timers_of i (pending (animateOnScroll s)) = timers_of i (pending s) /\
  count_occ Nat.eq_dec (animations (animateOnScroll s)) i
  = count_occ Nat.eq_dec (animations s) i.
Proof.
  intros He Ha. unfold animateOnScroll.
  generalize (seq 0 (length (elements s))). intros indices.
  revert s He. induction indices as [|j indices IH]; intros s He;
    cbn [List.fold_left]; [auto |].
  destruct (animate_element_skips s j i element He Ha) as (H1 & H2 & H3).
  destruct (IH (animate_element s j) H1) as (H4 & H5 & H6).
  rewrite H4, H5, H6, H2, H3. auto.
Qed.

(** C6. From the page as loaded, through any sequence of calls of
    [animateOnScroll], passing time (timers firing or not yet) and
    relayouts: no element ever had the timer of its transition set twice,
    and every element for which it was set carries "animated" from that
    call on. And in every such state, a call of [animateOnScroll] leaves an
    element that carries "animated" exactly as it is (its styles are not
    reset), sets no timer for it and leaves its pending timer alone. *)
Theorem animateOnScroll_never_twice
  (els : list Element) (vp : Viewport) (trace : list StageEvent) :
  let s := play trace (loaded els vp) in
  NoDup (animations s) /\
  (forall i, (count_occ Nat.eq_dec (animations s) i <= 1)%nat) /\
  marked_when_scheduled s /\
  marked_when_scheduled (animateOnScroll s) /\
  forall i element,
    elements s !! i = Some element ->
    is_animated element = true ->
    elements (animateOnScroll s) !! i = Some element /\
    timers_of i (pending (animateOnScroll s)) = timers_of i (pending s) /\
    count_occ Nat.eq_dec (animations (animateOnScroll s)) i
    = count_occ Nat.eq_dec (animations s) i.
Proof.
  cbv zeta.
  pose proof (play_once trace (loaded els vp) (loaded_once els vp)) as Hinv.
  pose proof (animateOnScroll_once _ Hinv) as [_ Hnext].
  destruct Hinv as [Hnodup Hmarked].
  split; [exact Hnodup |]. split.
  { intros i. apply NoDup_ListNoDup in Hnodup.
    now apply (proj1 (List.NoDup_count_occ Nat.eq_dec _)). }
  split; [exact Hmarked |]. split; [exact Hnext |].
  intros i element. apply animateOnScroll_skips.
Qed.

Lemma animateOnScroll_never_twice_witness :
  animations
    (play [Animate; Wait 50; Animate; Relayout scrolled desktop; Animate;
           Wait 50; Animate; Wait 100; Animate]
       (loaded [first_card; second_card] desktop))
  = [0; 1]%nat /\
  NoDup
    (animations
       (play [Animate; Wait 50; Animate; Relayout scrolled desktop; Animate;
              Wait 50; Animate; Wait 100; Animate]
          (loaded [first_card; second_card] desktop))).
Proof.
  split; [reflexivity |].
  apply (animateOnScroll_never_twice [first_card; second_card] desktop).
Defined.

(** ** The event loop runs every due timer *)

Lemma earliest_in {C} (best : option (Timer C)) (table : list (Timer C)) t :
  earliest best table = Some t -> best = Some t \/ In t table.
Proof.
  revert best. induction table as [|x table IH]; intros best H; cbn in H.
  - now left.
  - apply IH in H as [H | H]; [| right; now right].
    destruct best as [b|].
    + destruct (timer_due x <? timer_due b); injection H as <-; auto.
      right. now left.
    + injection H as <-. right. now left.
Qed.

Lemma next_due_in {C} (now0 : Z) (table : list (Timer C)) t :
  next_due now0 table = Some t -> In t table.
Proof.
  unfold next_due. intros H. apply earliest_in in H as [H | H]; [discriminate |].
  now apply filter_In in H as [H _].
Qed.

Lemma earliest_some {C} (b : Timer C) (table : list (Timer C)) :
  exists t, earliest (Some b) table = Some t.
Proof.
  revert b. induction table as [|x table IH]; intros b; cbn; [eauto |].
  destruct (timer_due x <? timer_due b); apply IH.
Qed.

(** Nothing is due exactly when no pending timer has reached its time. *)
Lemma next_due_none {C} (now0 : Z) (table : list (Timer C)) :
  next_due now0 table = None <->
  Forall (fun t => now0 < timer_due t) table.
Proof.
  unfold next_due. rewrite List.Forall_forall. split.
  - intros H t Ht. destruct (Z.leb_spec (timer_due t) now0) as [Hle | Hgt]; [| exact Hgt].
    assert (Hin : In t (List.filter (fun t => timer_due t <=? now0) table)).
    { apply filter_In. split; [exact Ht |]. now apply Z.leb_le. }
    destruct (List.filter (fun t => timer_due t <=? now0) table) as [|x rest];
      [contradiction |].
    cbn in H. destruct (earliest_some x rest) as (u & Hu). congruence.
  - intros H.
    assert (Hnil : List.filter (fun t => timer_due t <=? now0) table = []).
    { induction table as [|x table IH]; [reflexivity |]. cbn.
      destruct (Z.leb_spec (timer_due x) now0) as [Hle | Hgt].
      - specialize (H x (or_introl eq_refl)). lia.
      - apply IH. intros t Ht. apply H. now right. }
    now rewrite Hnil.
Qed.

Lemma clearTimeout_length {C} (handle : option nat) (table : list (Timer C)) :
  (length (clearTimeout handle table) <= length table)%nat.
Proof. destruct handle; cbn; [apply List.filter_length_le | lia]. Qed.

Lemma clearTimeout_shrinks {C} (table : list (Timer C)) t :
  In t table ->
  (length (clearTimeout (Some (timer_id t)) table) < length table)%nat.
Proof.
  intros H. cbn. induction table as [|x table IH]; [contradiction |].
  cbn. destruct H as [-> | H].
  - rewrite Nat.eqb_refl. cbn.
    pose proof (List.filter_length_le
                  (fun u => negb (Nat.eqb (timer_id u) (timer_id t))) table).
    lia.
  - specialize (IH H).
    destruct (negb (Nat.eqb (timer_id x) (timer_id t))); cbn; lia.
Qed.

(** With the length of the table as fuel, [wait_for] stops only when nothing
    is due any more. *)
Lemma run_animations_settles (fuel : nat) (s : Stage) :
  (length (pending s) <= fuel)%nat ->
  next_due (clock (run_animations fuel s)) (pending (run_animations fuel s))
  = None.
Proof.
  revert s. induction fuel as [|fuel IH]; intros s Hlen; cbn [run_animations].
  - destruct (pending s); [reflexivity | cbn in Hlen; lia].
  - destruct (next_due (clock s) (pending s)) as [t|] eqn:E; [| exact E].
    apply IH. cbn [fire_animation pending].
    pose proof (clearTimeout_shrinks (pending s) t (next_due_in _ _ _ E)). lia.
Qed.

Lemma wait_for_settles (d : Z) (s : Stage) :
  next_due (clock (wait_for d s)) (pending (wait_for d s)) = None.
Proof. unfold wait_for. apply run_animations_settles. cbn. lia. Qed.

Lemma run_due_settles {A W} (func : A -> W -> W) (fuel : nat) (s : Debounced A W) :
  (length (timers s) <= fuel)%nat ->
  next_due (now (run_due func fuel s)) (timers (run_due func fuel s)) = None.
Proof.
  revert s. induction fuel as [|fuel IH]; intros s Hlen; cbn [run_due].
  - destruct (timers s); [reflexivity | cbn in Hlen; lia].
  - destruct (next_due (now s) (timers s)) as [t|] eqn:E; [| exact E].
    apply IH. unfold fire, later. cbn [timers timeout].
    pose proof (clearTimeout_shrinks (timers s) t (next_due_in _ _ _ E)).
    pose proof (clearTimeout_length (timeout s)
                  (clearTimeout (Some (timer_id t)) (timers s))).
    lia.
Qed.

Lemma elapse_settles {A W} (func : A -> W -> W) (d : Z) (s : Debounced A W) :
  next_due (now (elapse func d s)) (timers (elapse func d s)) = None.
Proof. unfold elapse. apply run_due_settles. cbn. lia. Qed.

(** * Part III: further properties of the script *)

(** ** Navigation highlighting *)

Lemma remove_add l tok :
  DOMTokenList.remove (DOMTokenList.add l tok) tok = DOMTokenList.remove l tok.
Proof.
  unfold DOMTokenList.add. destruct (DOMTokenList.contains l tok); [reflexivity |].
  unfold DOMTokenList.remove. rewrite List.filter_app. cbn [List.filter].
  rewrite String.eqb_refl. apply app_nil_r.
Qed.

Lemma contains_remove_other l tok t :
  t <> tok ->
  DOMTokenList.contains (DOMTokenList.remove l tok) t = DOMTokenList.contains l t.
Proof.
  intros Hne. apply eq_true_iff_eq. rewrite !contains_true, in_remove. tauto.
Qed.

Lemma contains_add_other l tok t :
  t <> tok ->
  DOMTokenList.contains (DOMTokenList.add l tok) t = DOMTokenList.contains l t.
Proof.
  intros Hne. unfold DOMTokenList.add.
  destruct (DOMTokenList.contains l tok); [reflexivity |].
  apply eq_true_iff_eq. rewrite !contains_true, in_app_iff. cbn.
  intuition congruence.
Qed.

(** The second loop forgets what the link's "active" state was. *)
Lemma update_link_absorbs current previous link :
  update_link current (update_link previous link) = update_link current link.
Proof.
  assert (H : DOMTokenList.remove
                (link_classList (update_link previous link)) "active"
              = DOMTokenList.remove (link_classList link) "active").
  { unfold update_link. cbn [link_classList].
    destruct (strict_eq (href link) (fragment previous));
      now rewrite ?remove_add, remove_idem. }
  unfold update_link at 1 3. now rewrite H.
Qed.

Lemma updateActiveNavLink_after
  (y y' : Z) (secs secs' : list SectionEl) (navLinks : list NavLink) :
  updateActiveNavLink y secs (updateActiveNavLink y' secs' navLinks)
  = updateActiveNavLink y secs navLinks.
Proof.
  unfold updateActiveNavLink. rewrite List.map_map.
  apply List.map_ext. intros link. apply update_link_absorbs.
Qed.

(** X1. The marking that [updateActiveNavLink] leaves depends on the scroll
    offset and the sections only, never on which links were active before:
    a run after any earlier run (at another offset, over other sections)
    gives the very class lists a single run on the original links gives. In
    particular a second run at the same offset changes nothing. *)
Theorem updateActiveNavLink_absorbs
  (scrollY previousY : Z) (sections previous : list SectionEl)
  (navLinks : list NavLink) :
  updateActiveNavLink scrollY sections
    (updateActiveNavLink previousY previous navLinks)
  = updateActiveNavLink scrollY sections navLinks /\
  updateActiveNavLink scrollY sections
    (updateActiveNavLink scrollY sections navLinks)
  = updateActiveNavLink scrollY sections navLinks.
Proof.
  split; apply updateActiveNavLink_after.
Qed.

(** X2. [updateActiveNavLink] touches nothing but the class "active": the
    links stay as many, in the same order, each with its href, and every
    other class is on a link after the run exactly when it was before. *)
Theorem updateActiveNavLink_only_active
  (scrollY : Z) (sections : list SectionEl) (navLinks : list NavLink) :
  length (updateActiveNavLink scrollY sections navLinks) = length navLinks /\
  List.map href (updateActiveNavLink scrollY sections navLinks)
  = List.map href navLinks /\
  forall j link marked tok,
    navLinks !! j = Some link ->
    updateActiveNavLink scrollY sections navLinks !! j = Some marked ->
    tok <> "active" ->
    DOMTokenList.contains (link_classList marked) tok
    = DOMTokenList.contains (link_classList link) tok.
Proof.
  split; [apply length_map |]. split.
  - unfold updateActiveNavLink. rewrite List.map_map. now apply List.map_ext.
  - intros j link marked tok Hj Hm Htok.
    apply updateActiveNavLink_lookup in Hm as (link' & Hj' & ->).
    assert (link' = link) as -> by congruence.
    unfold update_link. cbn [link_classList].
    destruct (strict_eq (href link) (fragment (current_section scrollY sections)));
      now rewrite ?contains_add_other, contains_remove_other.
Qed.

Lemma in_section_range_spec scrollY s :
  in_section_range scrollY s = true <->
  offsetTop s - 100 <= scrollY < offsetTop s - 100 + clientHeight s.
Proof.
  unfold in_section_range. cbv zeta.
  rewrite andb_true_iff, Z.leb_le, Z.ltb_lt. tauto.
Qed.

Lemma in_section_range_false scrollY s :
  in_section_range scrollY s = false <->
  scrollY < offsetTop s - 100 \/ offsetTop s - 100 + clientHeight s <= scrollY.
Proof.
  rewrite <- not_true_iff_false, in_section_range_spec. lia.
Qed.

Lemma total_height_nonneg sections : stacked sections -> 0 <= total_height sections.
Proof.
  induction sections as [|s rest IH]; cbn; [lia |].
  intros (Hh & _ & Hrest). specialize (IH Hrest). unfold total_height in IH. lia.
Qed.

(** In a stacked layout every section after the first starts at or below the
    end of the first. *)
Lemma stacked_below s rest :
  stacked (s :: rest) ->
  Forall (fun t => offsetTop s + clientHeight s <= offsetTop t) rest.
Proof.
  revert s. induction rest as [|next rest IH]; intros s H; [constructor |].
  destruct H as (Hh & Hnext & Hrest).
  pose proof (IH next Hrest) as Hbelow.
  destruct Hrest as (Hh' & _).
  constructor; [lia |].
  eapply List.Forall_impl; [| exact Hbelow]. cbn. intros t Ht. lia.
Qed.

Lemma stacked_unique_section scrollY sections :
  stacked sections ->
  match sections with
  | [] => False
  | first :: _ =>
      offsetTop first - 100 <= scrollY
      < offsetTop first - 100 + total_height sections
  end ->
  exists before section after,
    sections = before ++ section :: after /\
    in_section_range scrollY section = true /\
    Forall (fun t => in_section_range scrollY t = false) before /\
    Forall (fun t => in_section_range scrollY t = false) after.
Proof.
  induction sections as [|s rest IH]; [contradiction |].
  intros Hst Hy.
  destruct (Z.lt_ge_cases scrollY (offsetTop s - 100 + clientHeight s))
    as [Hin | Hout].
  - exists [], s, rest. split; [reflexivity |].
    split; [apply in_section_range_spec; lia |]. split; [constructor |].
    eapply List.Forall_impl; [| exact (stacked_below s rest Hst)].
    cbn. intros t Ht. apply in_section_range_false. lia.
  - destruct Hst as (Hh & Hnext & Hrest).
    change (total_height (s :: rest)) with (clientHeight s + total_height rest) in Hy.
    destruct rest as [|next rest'].
    { cbn in Hy. lia. }
    destruct (IH Hrest) as (before & t & after & Heq & Ht & Hb & Ha); [lia |].
    exists (s :: before), t, after. rewrite Heq.
    split; [reflexivity |]. split; [exact Ht |]. split; [| exact Ha].
    constructor; [| exact Hb]. apply in_section_range_false. lia.
Qed.

(** X3. In a layout of sections stacked one under the other (none of negative
    height, each starting where the one before ends), every scroll offset
    from 100 pixels above the first section to 100 pixels above the end of
    the last lies in the range of exactly one section, and that section's
    id is what [updateActiveNavLink] takes as [current]: the links whose
    href is its fragment are the active ones, and no others. *)
Theorem stacked_sections_one_current
  (scrollY : Z) (first : SectionEl) (rest : list SectionEl)
  (navLinks : list NavLink) :
  stacked (first :: rest) ->
  offsetTop first - 100 <= scrollY
  < offsetTop first - 100 + total_height (first :: rest) ->
  exists before section after,
    first :: rest = before ++ section :: after /\
    in_section_range scrollY section = true /\
    Forall (fun t => in_section_range scrollY t = false) (before ++ after) /\
    current_section scrollY (first :: rest) = sec_id section /\
    forall j marked,
      updateActiveNavLink scrollY (first :: rest) navLinks !! j = Some marked ->
      (is_active marked = true <-> href marked = Some (fragment (sec_id section))).
Proof.
  intros Hst Hy.
  destruct (stacked_unique_section scrollY (first :: rest) Hst Hy)
    as (before & section & after & Heq & Hin & Hb & Ha).
  exists before, section, after.
  assert (Hcur : current_section scrollY (first :: rest) = sec_id section).
  { rewrite Heq. now apply current_section_last. }
  split; [exact Heq |]. split; [exact Hin |].
  split; [apply List.Forall_app; now split |]. split; [exact Hcur |].
  intros j marked Hj.
  apply updateActiveNavLink_lookup in Hj as (link & _ & ->).
  rewrite is_active_update_link, Hcur, strict_eq_true. reflexivity.
Qed.

Lemma stacked_sections_one_current_witness :
  stacked [hero_block; about_block; contact_block] /\
  offsetTop hero_block - 100 <= 700
  < offsetTop hero_block - 100
    + total_height [hero_block; about_block; contact_block] /\
  current_section 700 [hero_block; about_block; contact_block] = Some "about" /\
  exists before section after,
    [hero_block; about_block; contact_block] = before ++ section :: after /\
    in_section_range 700 section = true /\
    Forall (fun t => in_section_range 700 t = false) (before ++ after) /\
    current_section 700 [hero_block; about_block; contact_block]
    = sec_id section /\
    forall j marked,
      updateActiveNavLink 700 [hero_block; about_block; contact_block]
        [home_link; about_link; contact_link] !! j = Some marked ->
      (is_active marked = true <-> href marked = Some (fragment (sec_id section))).
Proof.
  assert (Hst : stacked [hero_block; about_block; contact_block])
    by (cbn; repeat split; lia).
  assert (Hy : offsetTop hero_block - 100 <= 700
               < offsetTop hero_block - 100
                 + total_height [hero_block; about_block; contact_block])
    by (cbn; lia).
  split; [exact Hst |]. split; [exact Hy |]. split; [reflexivity |].
  exact (stacked_sections_one_current 700 hero_block
           [about_block; contact_block]
           [home_link; about_link; contact_link] Hst Hy).
Defined.

(** ** The mobile menu *)

Lemma toggle_closed_opens p : menu_closed p -> menu_open (toggleMobileMenu p).
Proof.
  intros (Ha & Hc & Ho). unfold menu_open.
  split; [| split].
  - unfold toggleMobileMenu. cbn [aria_expanded]. now rewrite Ha.
  - now rewrite menu_active_toggle, Hc.
  - unfold toggleMobileMenu. cbn [body_overflow]. now rewrite Ha.
Qed.

Lemma toggle_open_closes p : menu_open p -> menu_closed (toggleMobileMenu p).
Proof.
  intros (Ha & Hc & Ho). unfold menu_closed.
  split; [| split].
  - unfold toggleMobileMenu. cbn [aria_expanded]. now rewrite Ha.
  - now rewrite menu_active_toggle, Hc.
  - unfold toggleMobileMenu. cbn [body_overflow]. now rewrite Ha.
Qed.

Lemma toggle_in_step p : in_step p -> in_step (toggleMobileMenu p).
Proof.
  intros [H | H]; [right; now apply toggle_open_closes
                  | left; now apply toggle_closed_opens].
Qed.

Lemma close_in_step p : in_step (closeMobileMenu p).
Proof. right. apply close_closed. Qed.

Lemma menu_closed_scrollTo top p : menu_closed p -> menu_closed (scrollTo top p).
Proof. auto. Qed.

Lemma menu_closed_pushState url p : menu_closed p -> menu_closed (pushState url p).
Proof. auto. Qed.

Lemma anchor_click_in_step doc h p :
  in_step p -> in_step (page_after (anchor_click doc h p)).
Proof.
  intros H. unfold anchor_click.
  destruct (String.eqb h "#"); [exact H |].
  destruct (querySelector doc h); cbn [page_after]; try exact H.
  destruct (navbar_offsetHeight doc); cbn [page_after];
    [| apply close_in_step].
  right. destruct (negb (String.eqb h "#home"));
    [apply menu_closed_pushState |]; apply menu_closed_scrollTo, close_closed.
Qed.

Lemma perform_in_step doc op p : in_step p -> in_step (perform doc op p).
Proof.
  intros H. destruct op; cbn [perform].
  - now apply toggle_in_step.
  - apply close_in_step.
  - unfold document_click.
    destruct (negb inContainer && negb inToggle && menu_active p);
      [apply close_in_step | exact H].
  - unfold document_keydown.
    destruct (String.eqb key "Escape" && menu_active p);
      [apply close_in_step | exact H].
  - unfold resize_handler.
    destruct (768 <? innerWidth p); [apply close_in_step | exact H].
  - now apply anchor_click_in_step.
  - exact H.
Qed.

(** X4. The body's scroll lock follows the menu: from a page whose menu is
    closed (or open) with attribute, class and overflow in step, every
    sequence of menu operations and listeners ends with the menu either open
    (aria-expanded "true", class "active", overflow "hidden") or closed
    (aria-expanded "false", no "active", overflow empty), never in between;
    and [toggleMobileMenu] takes each of the two to the other. *)
Theorem scroll_lock_follows_menu
  (doc : Document) (ops : list Operation) (p : Page) :
  in_step p ->
  in_step (perform_all doc ops p) /\
  (menu_closed (perform_all doc ops p) ->
   menu_open (toggleMobileMenu (perform_all doc ops p))) /\
  (menu_open (perform_all doc ops p) ->
   menu_closed (toggleMobileMenu (perform_all doc ops p))).
Proof.
  intros H. split; [| split; [apply toggle_closed_opens | apply toggle_open_closes]].
  unfold perform_all. revert p H.
  induction ops as [|op ops IH]; intros p H; cbn [List.fold_left]; [exact H |].
  apply IH. now apply perform_in_step.
Qed.

Lemma scroll_lock_follows_menu_witness :
  in_step closed_page /\
  in_step
    (perform_all example_document
       [OpToggleMobileMenu; OpAnchorClick "#nowhere"; OpKeydown "Enter";
        OpDocumentClick true false]
       closed_page) /\
  body_overflow
    (perform_all example_document
       [OpToggleMobileMenu; OpAnchorClick "#nowhere"; OpKeydown "Enter";
        OpDocumentClick true false]
       closed_page) = "hidden".
Proof.
  assert (H : in_step closed_page) by (right; repeat split).
  split; [exact H |]. split; [| reflexivity].
  apply (scroll_lock_follows_menu example_document _ closed_page H).
Defined.

(** X5. Dismissing the menu. From a page whose menu is open or closed in
    step, a click outside both the menu container and the toggle, and a
    press of Escape, each leave the menu closed with the scroll lock off. A
    click inside the container or the toggle, and any other key, leave the
    page exactly as it is; so the document listener does not undo the
    toggle that the same click on the toggle button has just done. *)
Theorem menu_dismissal (p : Page) :
  in_step p ->
  menu_closed (document_click false false p) /\
  menu_closed (document_keydown "Escape" p) /\
  (forall inContainer inToggle,
      inContainer || inToggle = true ->
      document_click inContainer inToggle p = p) /\
  (forall key, key <> "Escape" -> document_keydown key p = p) /\
  (forall inContainer,
      document_click inContainer true (toggleMobileMenu p) = toggleMobileMenu p).
Proof.
  intros H. split; [| split; [| split; [| split]]].
  - unfold document_click. cbn [negb andb].
    destruct (menu_active p) eqn:E; [apply close_closed |].
    destruct H as [(_ & Ha & _) | H]; [congruence | exact H].
  - unfold document_keydown. change (String.eqb "Escape" "Escape") with true.
    cbn [andb]. destruct (menu_active p) eqn:E; [apply close_closed |].
    destruct H as [(_ & Ha & _) | H]; [congruence | exact H].
  - intros inContainer inToggle Hin. unfold document_click.
    destruct inContainer, inToggle; try discriminate; reflexivity.
  - intros key Hkey. unfold document_keydown.
    apply String.eqb_neq in Hkey. now rewrite Hkey.
  - intros inContainer. unfold document_click.
    now rewrite andb_false_r.
Qed.

Lemma menu_dismissal_witness :
  in_step open_page /\
  menu_closed (document_click false false open_page) /\
  menu_closed (document_keydown "Escape" open_page) /\
  document_click true false open_page = open_page /\
  document_keydown "Tab" open_page = open_page.
Proof.
  assert (H : in_step open_page) by (left; repeat split).
  destruct (menu_dismissal open_page H) as (H1 & H2 & H3 & H4 & _).
  split; [exact H |]. split; [exact H1 |]. split; [exact H2 |].
  split; [now apply H3 | apply H4; discriminate].
Defined.

(** ** In-page anchors *)

Lemma scroll_requests_close p :
  scroll_requests (closeMobileMenu p) = scroll_requests p.
Proof. reflexivity. Qed.



Lemma perform_logs doc op p :
  exists scrolls urls,
    scroll_requests (perform doc op p) = scroll_requests p ++ scrolls /\
    history_entries (perform doc op p) = history_entries p ++ urls /\
    Forall (fun u => u <> "#" /\ u <> "#home" /\
                     exists targetTop, querySelector doc u = Found targetTop)
      urls /\
    (length urls <= length scrolls <= 1)%nat.
Proof.
  assert (Hsame : forall q,
             scroll_requests q = scroll_requests p ->
             history_entries q = history_entries p ->
             exists scrolls urls,
               scroll_requests q = scroll_requests p ++ scrolls /\
               history_entries q = history_entries p ++ urls /\
               Forall (fun u => u <> "#" /\ u <> "#home" /\
                         exists targetTop, querySelector doc u = Found targetTop)
                 urls /\
               (length urls <= length scrolls <= 1)%nat).
  { intros q H1 H2. exists [], []. rewrite !app_nil_r.
    repeat split; auto; cbn; lia. }
  destruct op; cbn [perform].
  - now apply Hsame.
  - now apply Hsame.
  - apply Hsame; unfold document_click;
      now destruct (negb inContainer && negb inToggle && menu_active p).
  - apply Hsame; unfold document_keydown;
      now destruct (String.eqb key "Escape" && menu_active p).
  - apply Hsame; unfold resize_handler; now destruct (768 <? innerWidth p).
  - unfold anchor_click.
    destruct (String.eqb_spec h "#") as [-> | Hh]; [now apply Hsame |].
    destruct (querySelector doc h) as [targetTop| |] eqn:Hq;
      cbn [page_after]; try now apply Hsame.
    destruct (navbar_offsetHeight doc) as [headerHeight|];
      cbn [page_after]; [| now apply Hsame].
    destruct (String.eqb_spec h "#home") as [-> | Hhome]; cbn [negb].
    + exists [targetTop - headerHeight], []. rewrite app_nil_r.
      repeat split; auto; cbn; lia.
    + exists [targetTop - headerHeight], [h].
      repeat split; auto; [repeat constructor; eauto | cbn; lia ..].
  - now apply Hsame.
Qed.

(** X7. What the script does to the scroll position and the URL: over any
    sequence of menu operations and listener runs the recorded calls of
    [window.scrollTo] and [history.pushState] only grow at the end; every
    URL pushed is the href of an anchor whose target is in the document, never
    the bare "#" and never "#home"; and no URL is pushed without a scroll
    request, at most one of each per operation. *)
Theorem scroll_and_history_only_grow
  (doc : Document) (ops : list Operation) (p : Page) :
  exists scrolls urls,
    scroll_requests (perform_all doc ops p) = scroll_requests p ++ scrolls /\
    history_entries (perform_all doc ops p) = history_entries p ++ urls /\
    Forall (fun u => u <> "#" /\ u <> "#home" /\
                     exists targetTop, querySelector doc u = Found targetTop)
      urls /\
    (length urls <= length scrolls <= length ops)%nat.
Proof.
  unfold perform_all. revert p.
  induction ops as [|op ops IH]; intros p; cbn [List.fold_left].
  - exists [], []. rewrite !app_nil_r. repeat split; auto; cbn; lia.
  - destruct (perform_logs doc op p) as (s1 & u1 & Hs1 & Hu1 & Hf1 & Hl1).
    destruct (IH (perform doc op p)) as (s2 & u2 & Hs2 & Hu2 & Hf2 & Hl2).
    exists (s1 ++ s2), (u1 ++ u2).
    rewrite Hs2, Hu2, Hs1, Hu1, <- !app_assoc.
    split; [reflexivity |]. split; [reflexivity |].
    split; [apply List.Forall_app; now split |].
    rewrite !length_app. cbn [length]. lia.
Qed.

(** ** Reveal animation *)

Lemma animate_element_step (s : Stage) (j : nat) :
  clock (animate_element s j) = clock s /\
  viewport (animate_element s j) = viewport s /\
  fresh_handle (animate_element s j)
  = (fresh_handle s + (if started_at s j then 1 else 0))%nat /\
  animations (animate_element s j)
  = animations s ++ (if started_at s j then [j] else []) /\
  pending (animate_element s j)
  = pending s ++ (if started_at s j
                  then [{| timer_id := fresh_handle s;
                           timer_due := clock s + 100;
                           timer_callback := j |}]
                  else []) /\
  forall i,
    elements (animate_element s j) !! i
    = if Nat.eqb i j
      then animated_element (viewport s) <$> elements s !! i
      else elements s !! i.
Proof.
  unfold animate_element, started_at, animated_element, starts_animation, is_animated.
  destruct (elements s !! j) as [element|] eqn:E.
  - destruct (isInViewport (viewport s) element
              && negb (DOMTokenList.contains (el_classList element) "animated"))
      eqn:Hc; cbn [clock viewport fresh_handle animations pending elements].
    + repeat split; try reflexivity; [lia |].
      intros i. destruct (Nat.eqb_spec i j) as [-> | Hne].
      * rewrite E. cbn. rewrite Hc.
        apply list_lookup_insert_eq. now apply lookup_lt_Some in E.
      * apply list_lookup_insert_ne. congruence.
    + rewrite !app_nil_r. repeat split; try reflexivity; [lia |].
      intros i. destruct (Nat.eqb_spec i j) as [-> | Hne]; [| reflexivity].
      rewrite E. cbn. now rewrite Hc.
  - rewrite !app_nil_r. repeat split; try reflexivity; [lia |].
    intros i. destruct (Nat.eqb_spec i j) as [-> | Hne]; [| reflexivity].
    now rewrite E.
Qed.

Lemma animate_element_length (s : Stage) (j : nat) :
  length (elements (animate_element s j)) = length (elements s).
Proof.
  destruct (animate_element_cases s j) as [-> | (element & _ & _ & _ & ->)];
    [reflexivity |].
  cbn [elements]. apply length_insert.
Qed.

Lemma started_at_step (s : Stage) (j i : nat) :
  i <> j -> started_at (animate_element s j) i = started_at s i.
Proof.
  intros Hne. unfold started_at.
  destruct (animate_element_step s j) as (_ & -> & _ & _ & _ & He).
  rewrite He. apply Nat.eqb_neq in Hne. now rewrite Hne.
Qed.

Lemma animate_fold (indices : list nat) (s : Stage) :
  List.NoDup indices ->
  clock (List.fold_left animate_element indices s) = clock s /\
  viewport (List.fold_left animate_element indices s) = viewport s /\
  animations (List.fold_left animate_element indices s)
  = animations s ++ List.filter (started_at s) indices /\
  (exists new,
      pending (List.fold_left animate_element indices s) = pending s ++ new /\
      List.map timer_callback new = List.filter (started_at s) indices /\
      List.map timer_id new
      = seq (fresh_handle s) (length (List.filter (started_at s) indices)) /\
      Forall (fun t => timer_due t = clock s + 100) new) /\
  forall i,
    elements (List.fold_left animate_element indices s) !! i
    = if existsb (Nat.eqb i) indices
      then animated_element (viewport s) <$> elements s !! i
      else elements s !! i.
Proof.
  revert s. induction indices as [|j indices IH]; intros s Hnd.
  - cbn. rewrite app_nil_r. repeat split; auto.
    exists []. rewrite app_nil_r. repeat split; auto.
  - inversion Hnd as [|? ? Hj Hnd']; subst.
    cbn [List.fold_left].
    destruct (animate_element_step s j) as (Hc & Hv & Hf & Ha & Hp & He).
    destruct (IH (animate_element s j) Hnd')
      as (Hc' & Hv' & Ha' & (new & Hp' & Hcb & Hid & Hdue) & He').
    assert (Hfilter : List.filter (started_at (animate_element s j)) indices
                      = List.filter (started_at s) indices).
    { apply List.filter_ext_in. intros i Hi. apply started_at_step.
      intros ->. contradiction. }
    rewrite Hfilter in *.
    rewrite Hc', Hv', Ha', Hp', Hc, Hv, Ha, Hp. cbn [List.filter].
    split; [reflexivity |]. split; [reflexivity |].
    split; [destruct (started_at s j); now rewrite <- app_assoc |].
    split.
    + destruct (started_at s j).
      * eexists (_ :: new). rewrite <- app_assoc. split; [reflexivity |].
        cbn [List.map timer_callback timer_id length seq].
        rewrite Hcb, Hid, Hf, Nat.add_1_r.
        repeat split. constructor; [reflexivity |].
        now rewrite Hc in Hdue.
      * exists new. rewrite app_nil_r, Hid, Hf, Nat.add_0_r.
        repeat split; auto. now rewrite Hc in Hdue.
    + intros i. rewrite He', He, Hv. cbn [existsb].
      destruct (Nat.eqb_spec i j) as [-> | Hne]; cbn [orb].
      * assert (Hnot : existsb (Nat.eqb j) indices = false).
        { apply not_true_iff_false. rewrite existsb_exists.
          intros (x & Hx & Hxj). apply Nat.eqb_eq in Hxj. now subst. }
        now rewrite Hnot.
      * destruct (existsb (Nat.eqb i) indices); reflexivity.
Qed.

(** X8. What one call of [animateOnScroll] does, element by element: an
    element that is in the viewport and does not carry "animated" gets the
    class, opacity "0" and the 20 pixel offset, and one timer due 100 ms from
    now; every other element is left exactly as it is and gets no timer. The
    timers are set in document order, with fresh handles, after the ones
    that were pending, and the clock and the viewport do not change. *)
Theorem animateOnScroll_pointwise (s : Stage) :
  let started := List.filter (started_at s) (seq 0 (length (elements s))) in
  clock (animateOnScroll s) = clock s /\
  viewport (animateOnScroll s) = viewport s /\
  (forall i element,
      elements s !! i = Some element ->
      elements (animateOnScroll s) !! i
      = Some (if isInViewport (viewport s) element && negb (is_animated element)
              then start_animation element
              else element)) /\
  length (elements (animateOnScroll s)) = length (elements s) /\
  animations (animateOnScroll s) = animations s ++ started /\
  exists new,
    pending (animateOnScroll s) = pending s ++ new /\
    List.map timer_callback new = started /\
    List.map timer_id new = seq (fresh_handle s) (length started) /\
    Forall (fun t => timer_due t = clock s + 100) new.
Proof.
  cbv zeta. unfold animateOnScroll.
  destruct (animate_fold (seq 0 (length (elements s))) s (List.seq_NoDup _ _))
    as (Hc & Hv & Ha & Hnew & He).
  assert (Hat : forall i element,
             elements s !! i = Some element ->
             elements (List.fold_left animate_element
                         (seq 0 (length (elements s))) s) !! i
             = Some (animated_element (viewport s) element)).
  { intros i element Hi. rewrite He, Hi.
    assert (Hin : existsb (Nat.eqb i) (seq 0 (length (elements s))) = true).
    { apply existsb_exists. exists i. split; [| apply Nat.eqb_refl].
      apply in_seq. apply lookup_lt_Some in Hi. lia. }
    now rewrite Hin. }
  split; [exact Hc |]. split; [exact Hv |]. split; [exact Hat |].
  split; [| split; [exact Ha | exact Hnew]].
  generalize (seq 0 (length (elements s))). intros indices.
  clear. revert s.
  induction indices as [|j indices IH]; intros s; cbn [List.fold_left];
    [reflexivity |].
  rewrite IH. apply animate_element_length.
Qed.

Lemma same_id_same_timer {C} (table : list (Timer C)) (a b : Timer C) :
  List.NoDup (List.map timer_id table) ->
  In a table -> In b table -> timer_id a = timer_id b -> a = b.
Proof.
  induction table as [|x table IH]; [contradiction |].
  cbn [List.map]. intros Hnd Ha Hb Hid. inversion Hnd as [|? ? Hx Hnd']; subst.
  destruct Ha as [-> | Ha], Hb as [-> | Hb]; auto.
  - exfalso. apply Hx. rewrite Hid. now apply in_map.
  - exfalso. apply Hx. rewrite <- Hid. now apply in_map.
Qed.

Lemma clearTimeout_in {C} (h : nat) (table : list (Timer C)) (t : Timer C) :
  In t (clearTimeout (Some h) table) <-> In t table /\ timer_id t <> h.
Proof.
  cbn. rewrite filter_In, negb_true_iff, Nat.eqb_neq. reflexivity.
Qed.

Lemma clearTimeout_ids_nodup {C} (h : option nat) (table : list (Timer C)) :
  List.NoDup (List.map timer_id table) ->
  List.NoDup (List.map timer_id (clearTimeout h table)).
Proof.
  destruct h as [h|]; [| auto]. cbn.
  induction table as [|x table IH]; cbn; [auto |].
  intros Hnd. inversion Hnd as [|? ? Hx Hnd']; subst.
  destruct (negb (Nat.eqb (timer_id x) h)); cbn; [| auto].
  constructor; [| auto].
  intros Hin. apply Hx. apply in_map_iff in Hin as (y & Hy & Hin).
  apply filter_In in Hin as [Hin _]. apply in_map_iff. eauto.
Qed.

Lemma is_Some_insert {X} (l : list X) (j i : nat) (x : X) :
  is_Some (<[j := x]> l !! i) <-> is_Some (l !! i).
Proof. now rewrite !lookup_lt_is_Some, length_insert. Qed.

Lemma same_look_refl element : same_look element element.
Proof. repeat split. Qed.

Lemma loaded_ok els vp : stage_ok els (loaded els vp).
Proof.
  split; [apply loaded_once |]. split; [| split].
  - split; constructor.
  - intros i [].
  - split; [reflexivity |]. intros i original Hi _.
    exists original. split; [exact Hi | apply same_look_refl].
Qed.

Lemma animate_element_ok els (s : Stage) (j : nat) :
  stage_ok els s -> stage_ok els (animate_element s j).
Proof.
  intros H. pose proof H as (Honce & (Hnd & Hall) & Hhid & Hlen & Hun).
  pose proof (animate_element_once s j Honce) as Honce'.
  destruct (animate_element_cases s j) as [-> | (element & He & Ha & _ & Heq)];
    [exact H |]. clear H.
  rewrite Heq in *. clear Heq.
  assert (Hfresh : ~ In j (animations s)).
  { intros Hj. destruct Honce as [_ Hm].
    destruct (Hm j Hj) as (other & Ho & Hoa). congruence. }
  rewrite List.Forall_forall in Hall.
  split; [exact Honce' |].
  unfold timers_sound, none_left_hidden, others_untouched.
  cbn [pending elements animations clock fresh_handle]. unfold setTimeout.
  split; [| split; [| split]].
  - split.
    + rewrite List.map_app. cbn [List.map timer_id].
      apply List.NoDup_app; repeat split; auto.
      * repeat constructor. intros [].
      * intros x Hx [<- | []]. apply in_map_iff in Hx as (t & Hid & Ht).
        destruct (Hall t Ht) as (Hlt & _). lia.
    + apply List.Forall_app. split.
      * apply List.Forall_forall. intros t Ht.
        destruct (Hall t Ht) as (Hlt & Hdue & Hin & Hsome).
        repeat split; [lia | exact Hdue | apply in_or_app; now left |].
        now apply is_Some_insert.
      * repeat constructor; cbn [timer_id timer_due timer_callback];
          [lia | apply in_or_app; right; now left |].
        apply is_Some_insert. eauto.
  - intros i Hi. apply in_app_or in Hi as [Hi | [<- | []]].
    + destruct (Hhid i Hi) as [(t & Ht & Hcb) | (other & Ho & Hr)].
      * left. exists t. split; [apply in_or_app; now left | exact Hcb].
      * right. exists other. split; [| exact Hr].
        rewrite list_lookup_insert_ne; [exact Ho |]. intros ->. contradiction.
    + left. eexists. split; [apply in_or_app; right; now left | reflexivity].
  - now rewrite length_insert.
  - intros i original Hi Hnot.
    assert (Hne : j <> i).
    { intros ->. apply Hnot. apply in_or_app. right. now left. }
    rewrite list_lookup_insert_ne by exact Hne.
    apply Hun; [exact Hi |]. intros Hin. apply Hnot. apply in_or_app. now left.
Qed.

Lemma animateOnScroll_ok els (s : Stage) :
  stage_ok els s -> stage_ok els (animateOnScroll s).
Proof.
  unfold animateOnScroll. generalize (seq 0 (length (elements s))).
  intros indices. revert s.
  induction indices as [|i indices IH]; intros s H; cbn [List.fold_left]; auto.
  apply IH. now apply animate_element_ok.
Qed.

Lemma revealed_finish element : revealed (finish_animation element).
Proof. repeat split. Qed.

Lemma fire_animation_ok els (t : Timer nat) (s : Stage) :
  In t (pending s) -> stage_ok els s -> stage_ok els (fire_animation t s).
Proof.
  intros Ht (Honce & (Hnd & Hall) & Hhid & Hlen & Hun).
  rewrite List.Forall_forall in Hall.
  destruct (Hall t Ht) as (_ & _ & Hcb & (target & Htarget)).
  assert (Hels : elements (fire_animation t s)
                 = <[timer_callback t := finish_animation target]> (elements s)).
  { unfold fire_animation. cbn [elements]. now rewrite Htarget. }
  split; [now apply fire_animation_once |]. split; [| split; [| split]].
  - split; [apply clearTimeout_ids_nodup, Hnd |].
    apply List.Forall_forall. intros u Hu.
    apply clearTimeout_in in Hu as [Hu _].
    destruct (Hall u Hu) as (H1 & H2 & H3 & H4).
    repeat split; auto. rewrite Hels. now apply is_Some_insert.
  - intros i Hi. destruct (Nat.eq_dec (timer_callback t) i) as [<- | Hne].
    + right. exists (finish_animation target). split; [| apply revealed_finish].
      rewrite Hels. apply list_lookup_insert_eq. now apply lookup_lt_Some in Htarget.
    + destruct (Hhid i Hi) as [(u & Hu & Hucb) | (other & Ho & Hr)].
      * left. exists u. split; [| exact Hucb].
        apply clearTimeout_in. split; [exact Hu |].
        intros Hid. apply Hne.
        rewrite <- Hucb. f_equal. symmetry.
        now apply (same_id_same_timer (pending s)).
      * right. exists other. split; [| exact Hr].
        rewrite Hels. now rewrite list_lookup_insert_ne.
  - rewrite Hels. now rewrite length_insert.
  - intros i original Hi Hnot. cbn [fire_animation animations] in Hnot.
    rewrite Hels. rewrite list_lookup_insert_ne; [now apply Hun |].
    intros <-. contradiction.
Qed.

Lemma run_animations_ok els (fuel : nat) (s : Stage) :
  stage_ok els s -> stage_ok els (run_animations fuel s).
Proof.
  revert s. induction fuel as [|fuel IH]; intros s H; cbn [run_animations]; auto.
  destruct (next_due (clock s) (pending s)) as [t|] eqn:E; auto.
  apply IH. apply fire_animation_ok; [| exact H]. now apply next_due_in in E.
Qed.

(** Running timers sets none and leaves the clock alone. *)
Lemma run_animations_pending (fuel : nat) (s : Stage) :
  clock (run_animations fuel s) = clock s /\
  forall t, In t (pending (run_animations fuel s)) -> In t (pending s).
Proof.
  revert s. induction fuel as [|fuel IH]; intros s; cbn [run_animations]; auto.
  destruct (next_due (clock s) (pending s)) as [t|]; auto.
  destruct (IH (fire_animation t s)) as (Hc & Hsub).
  split; [exact Hc |]. intros u Hu. apply Hsub in Hu.
  now apply clearTimeout_in in Hu as [Hu _].
Qed.

Lemma wait_for_ok els (d : Z) (s : Stage) :
  stage_ok els s -> stage_ok els (wait_for d s).
Proof.
  intros (Honce & (Hnd & Hall) & Hhid & Hun). unfold wait_for.
  apply run_animations_ok.
  split; [exact Honce |]. split; [| split; [exact Hhid | exact Hun]].
  split; [exact Hnd |]. cbn [pending clock fresh_handle animations elements].
  eapply List.Forall_impl; [| exact Hall]. cbn.
  intros t (H1 & H2 & H3 & H4). repeat split; auto. lia.
Qed.

Lemma relayout_ok els rects vp (s : Stage) :
  stage_ok els s -> stage_ok els (relayout rects vp s).
Proof.
  intros (Honce & (Hnd & Hall) & Hhid & Hlen & Hun).
  split; [now apply relayout_once |].
  unfold timers_sound, none_left_hidden, others_untouched, relayout.
  cbn [pending clock fresh_handle animations elements].
  split; [| split; [| split]].
  - split; [exact Hnd |].
    eapply List.Forall_impl; [| exact Hall]. cbn.
    intros t (H1 & H2 & H3 & (x & Hx)). repeat split; auto.
    rewrite list_lookup_imap, Hx. cbn. eauto.
  - intros i Hi. destruct (Hhid i Hi) as [H | (other & Ho & Hr)]; [now left |].
    right. exists (move (rects i) other). split; [| exact Hr].
    now rewrite list_lookup_imap, Ho.
  - now rewrite length_imap.
  - intros i original Hi Hnot. destruct (Hun i original Hi Hnot) as (x & Hx & Hlook).
    exists (move (rects i) x). split; [| exact Hlook].
    now rewrite list_lookup_imap, Hx.
Qed.

Lemma play_ok els (trace : list StageEvent) (s : Stage) :
  stage_ok els s -> stage_ok els (play trace s).
Proof.
  unfold play. revert s.
  induction trace as [|e trace IH]; intros s H; cbn [List.fold_left]; auto.
  apply IH. destruct e; cbn [stage_step].
  - now apply animateOnScroll_ok.
  - now apply wait_for_ok.
  - now apply relayout_ok.
Qed.

(** X9. No element is left hidden. From the page as loaded, after any
    sequence of [animateOnScroll] calls, passing time and relayouts, once
    100 ms or more pass in one stretch no timer is pending any more and
    every element whose animation was ever started has its final styles:
    opacity "1", no offset and the transition set, wherever it has moved to
    since (the timer is never cancelled). *)
Theorem started_elements_end_revealed
  (els : list Element) (vp : Viewport) (trace : list StageEvent) (d : Z) :
  100 <= d ->
  let s := wait_for d (play trace (loaded els vp)) in
  pending s = [] /\
  forall i, In i (animations s) ->
    exists element,
      elements s !! i = Some element /\
      revealed element /\
      is_animated element = true.
Proof.
  intros Hd. cbv zeta.
  set (s0 := play trace (loaded els vp)).
  assert (H0 : stage_ok els s0) by apply play_ok, loaded_ok.
  pose proof (wait_for_ok els d s0 H0) as (Honce & _ & Hhid & _).
  assert (Hempty : pending (wait_for d s0) = []).
  { pose proof (wait_for_settles d s0) as Hnone.
    apply next_due_none in Hnone. rewrite List.Forall_forall in Hnone.
    destruct (pending (wait_for d s0)) as [|t rest] eqn:E; [reflexivity |].
    exfalso. specialize (Hnone t (or_introl eq_refl)).
    unfold wait_for in *.
    match type of E with pending (run_animations ?n ?s1) = _ =>
      destruct (run_animations_pending n s1) as (Hc & Hsub) end.
    rewrite Hc in Hnone. cbn [clock] in Hnone.
    assert (Hin : In t (pending s0)).
    { apply Hsub. rewrite E. now left. }
    destruct H0 as (_ & (_ & Hall) & _).
    rewrite List.Forall_forall in Hall.
    destruct (Hall t Hin) as (_ & Hdue & _). lia. }
  split; [exact Hempty |].
  intros i Hi. destruct Honce as [_ Hmarked].
  destruct (Hhid i Hi) as [(t & Ht & _) | (element & He & Hr)].
  - rewrite Hempty in Ht. contradiction.
  - exists element. split; [exact He |]. split; [exact Hr |].
    destruct (Hmarked i Hi) as (other & Ho & Hoa). congruence.
Qed.

Lemma started_elements_end_revealed_witness :
  100 <= 100 /\
  elements
    (wait_for 100
       (play [Animate; Wait 60; Relayout scrolled desktop; Animate; Wait 60]
          (loaded [first_card; second_card] desktop))) !! 1%nat
  = Some {| rect_top := 500%float;
            rect_bottom := 700%float;
            el_classList := ["project-card"; "animated"];
            style_opacity := "1";
            style_transform := "translateY(0)";
            style_transition := "opacity 0.6s ease, transform 0.6s ease" |} /\
  pending
    (wait_for 100
       (play [Animate; Wait 60; Relayout scrolled desktop; Animate; Wait 60]
          (loaded [first_card; second_card] desktop))) = [].
Proof.
  split; [lia |]. split; [reflexivity |].
  apply (started_elements_end_revealed [first_card; second_card] desktop
           [Animate; Wait 60; Relayout scrolled desktop; Animate; Wait 60] 100).
  lia.
Defined.

(** X10. The script restyles only what it animates. From the page as loaded,
    after any sequence of [animateOnScroll] calls, passing time and
    relayouts, the document has the same number of decorative elements, and
    every element whose animation was never started has the class list and
    the opacity, transform and transition it was loaded with; a timer is
    only ever pending for an element whose animation was started. *)
Theorem unstarted_elements_untouched
  (els : list Element) (vp : Viewport) (trace : list StageEvent) :
  let s := play trace (loaded els vp) in
  length (elements s) = length els /\
  (forall i original,
      els !! i = Some original ->
      ~ In i (animations s) ->
      exists element,
        elements s !! i = Some element /\ same_look element original) /\
  (forall t, In t (pending s) -> In (timer_callback t) (animations s)).
Proof.
  cbv zeta.
  destruct (play_ok els trace (loaded els vp) (loaded_ok els vp))
    as (_ & (_ & Hall) & _ & Hlen & Hun).
  split; [exact Hlen |]. split; [exact Hun |].
  rewrite List.Forall_forall in Hall. intros t Ht.
  now destruct (Hall t Ht) as (_ & _ & Hin & _).
Qed.

(** ** The page as a whole *)

Lemma closure_call_timers now0 handle wait c :
  closure_single c ->
  closure_timers (closure_call now0 handle wait c)
  = [{| timer_id := handle;
        timer_due := now0 + Z.max 0 wait;
        timer_callback := tt |}].
Proof.
  intros H. unfold closure_call, setTimeout. cbn [closure_timers].
  destruct H as [H | (t & Ht & Hh)].
  - rewrite H. now destruct (closure_timeout c).
  - rewrite Ht, Hh, clearTimeout_own. reflexivity.
Qed.

Lemma closure_call_single now0 handle wait c :
  closure_single c -> closure_single (closure_call now0 handle wait c).
Proof.
  intros H. right. eexists. split; [now apply closure_call_timers | reflexivity].
Qed.

Lemma clearTimeout_single {C} (h : option nat) (t : Timer C) :
  clearTimeout h [t] = [] \/ clearTimeout h [t] = [t].
Proof.
  destruct h as [h|]; [| now right]. cbn.
  destruct (negb (Nat.eqb (timer_id t) h)); auto.
Qed.

Lemma clearTimeout_keeps_single h c :
  closure_single c ->
  closure_single {| closure_timers := clearTimeout h (closure_timers c);
                    closure_timeout := closure_timeout c |}.
Proof.
  intros [H | (t & Ht & Hh)]; cbn [closure_single closure_timers closure_timeout].
  - left. cbn. rewrite H. now destruct h.
  - rewrite Ht. destruct (clearTimeout_single h t) as [-> | ->];
      [now left | right; eauto].
Qed.

Lemma closure_take_single t c :
  closure_single c -> closure_single (closure_take t c).
Proof. apply clearTimeout_keeps_single. Qed.

Lemma closure_later_single c :
  closure_single c -> closure_single (closure_later c).
Proof. apply clearTimeout_keeps_single. Qed.

Lemma take_handle_ok els (s : Stage) : stage_ok els s -> stage_ok els (take_handle s).
Proof.
  intros (Honce & (Hnd & Hall) & Hhid & Hun).
  split; [exact Honce |]. split; [| split; [exact Hhid | exact Hun]].
  split; [exact Hnd |]. cbn [take_handle pending clock fresh_handle animations elements].
  eapply List.Forall_impl; [| exact Hall]. cbn.
  intros t (H1 & H2 & H3 & H4). repeat split; auto.
Qed.

Lemma advance_clock_ok els d (s : Stage) :
  stage_ok els s -> stage_ok els (advance_clock d s).
Proof.
  intros (Honce & (Hnd & Hall) & Hhid & Hun).
  split; [exact Honce |]. split; [| split; [exact Hhid | exact Hun]].
  split; [exact Hnd |]. cbn [advance_clock pending clock fresh_handle animations elements].
  eapply List.Forall_impl; [| exact Hall]. cbn.
  intros t (H1 & H2 & H3 & H4). repeat split; auto. lia.
Qed.

Lemma nav_marked_from_update links y secs (b : Browser) :
  nav_marked_from links b ->
  updateActiveNavLink y secs (nav_link_list b) = updateActiveNavLink y secs links.
Proof.
  intros [-> | (y' & secs' & ->)]; [reflexivity |].
  apply updateActiveNavLink_after.
Qed.

Lemma next_due_le {C} (now0 : Z) (table : list (Timer C)) t :
  next_due now0 table = Some t -> timer_due t <= now0.
Proof.
  unfold next_due. intros H. apply earliest_in in H as [H | H]; [discriminate |].
  apply filter_In in H as [_ H]. now apply Z.leb_le.
Qed.

Lemma sooner_cases x y : sooner x y = x \/ sooner x y = y.
Proof. unfold sooner. destruct (_ || _); auto. Qed.

Lemma sooner_of_some x y z :
  sooner_of x y = Some z -> x = Some z \/ y = Some z.
Proof.
  destruct x as [a|], y as [c|]; cbn; intros H; auto.
  injection H as <-. destruct (sooner_cases a c) as [-> | ->]; auto.
Qed.

(** The timer the loop picks is pending in its table and due. *)
Lemma next_timer_some (b : Browser) (x : DueTimer) :
  next_timer b = Some x ->
  match x with
  | DueScroll t =>
      In t (closure_timers (scroll_closure b)) /\ timer_due t <= clock (stage_of b)
  | DueResize t =>
      In t (closure_timers (resize_closure b)) /\ timer_due t <= clock (stage_of b)
  | DueReveal t =>
      In t (pending (stage_of b)) /\ timer_due t <= clock (stage_of b)
  end.
Proof.
  unfold next_timer. cbv zeta. intros H.
  apply sooner_of_some in H as [H | H]; [| apply sooner_of_some in H as [H | H]].
  - destruct (next_due _ (closure_timers (scroll_closure b))) as [t|] eqn:E;
      [| discriminate].
    injection H as <-. eauto using next_due_in, next_due_le.
  - destruct (next_due _ (closure_timers (resize_closure b))) as [t|] eqn:E;
      [| discriminate].
    injection H as <-. eauto using next_due_in, next_due_le.
  - destruct (next_due _ (pending (stage_of b))) as [t|] eqn:E;
      [| discriminate].
    injection H as <-. eauto using next_due_in, next_due_le.
Qed.

Lemma next_timer_none (b : Browser) :
  next_timer b = None <->
  next_due (clock (stage_of b)) (closure_timers (scroll_closure b)) = None /\
  next_due (clock (stage_of b)) (closure_timers (resize_closure b)) = None /\
  next_due (clock (stage_of b)) (pending (stage_of b)) = None.
Proof.
  unfold next_timer. cbv zeta.
  destruct (next_due (clock (stage_of b)) (closure_timers (scroll_closure b)));
  destruct (next_due (clock (stage_of b)) (closure_timers (resize_closure b)));
  destruct (next_due (clock (stage_of b)) (pending (stage_of b))); cbn;
  split; try discriminate; try tauto; intros (H1 & H2 & H3); discriminate.
Qed.

Lemma page_updateActiveNavLink_ok links els (b : Browser) :
  page_ok links els b -> page_ok links els (page_updateActiveNavLink b).
Proof.
  intros (Hs & Hc1 & Hc2 & Hn).
  split; [exact Hs |]. split; [exact Hc1 |]. split; [exact Hc2 |].
  right. exists (window_scrollY b), (section_list b).
  unfold page_updateActiveNavLink. cbn [with_nav_links nav_link_list].
  now apply nav_marked_from_update.
Qed.

Lemma page_animateOnScroll_ok links els (b : Browser) :
  page_ok links els b -> page_ok links els (page_animateOnScroll b).
Proof.
  intros (Hs & Hc1 & Hc2 & Hn).
  split; [| split; [exact Hc1 | split; [exact Hc2 | exact Hn]]].
  now apply animateOnScroll_ok.
Qed.

Lemma scroll_func_ok links els (b : Browser) :
  page_ok links els b -> page_ok links els (scroll_func b).
Proof.
  intros H. now apply page_animateOnScroll_ok, page_updateActiveNavLink_ok.
Qed.

Lemma fire_timer_ok links els (x : DueTimer) (b : Browser) :
  next_timer b = Some x ->
  page_ok links els b -> page_ok links els (fire_timer x b).
Proof.
  intros Hx (Hs & Hc1 & Hc2 & Hn). apply next_timer_some in Hx.
  destruct x as [t | t | t]; cbn [fire_timer].
  - apply scroll_func_ok.
    split; [exact Hs |]. split; [| split; [exact Hc2 | exact Hn]].
    cbn. now apply closure_later_single, closure_take_single.
  - unfold resize_later. cbv zeta.
    split; [exact Hs |]. split; [exact Hc1 |]. split; [| exact Hn].
    cbn. now apply closure_later_single, closure_take_single.
  - destruct Hx as [Hin _].
    split; [| split; [exact Hc1 | split; [exact Hc2 | exact Hn]]].
    now apply fire_animation_ok.
Qed.

Lemma run_timers_ok links els (fuel : nat) (b : Browser) :
  page_ok links els b -> page_ok links els (run_timers fuel b).
Proof.
  revert b. induction fuel as [|fuel IH]; intros b H; cbn [run_timers]; auto.
  destruct (next_timer b) as [x|] eqn:E; auto.
  apply IH. now apply (fire_timer_ok links els x b).
Qed.

Lemma pass_ok links els (d : Z) (b : Browser) :
  page_ok links els b -> page_ok links els (pass d b).
Proof.
  intros (Hs & Hc1 & Hc2 & Hn). unfold pass. apply run_timers_ok.
  split; [| split; [exact Hc1 | split; [exact Hc2 | exact Hn]]].
  now apply advance_clock_ok.
Qed.

Lemma page_step_ok links els doc (b : Browser) (e : PageEvent) :
  page_ok links els b -> page_ok links els (page_step doc b e).
Proof.
  intros H. destruct e; cbn [page_step].
  - destruct H as (Hs & Hc1 & Hc2 & Hn). split; [| split; [| split]]; auto.
    + cbn. now apply take_handle_ok, relayout_ok.
    + cbn. now apply closure_call_single.
  - destruct H as (Hs & Hc1 & Hc2 & Hn). split; [| split; [| split]]; auto.
    + cbn. now apply take_handle_ok, relayout_ok.
    + cbn. now apply closure_call_single.
  - exact H.
  - now apply page_updateActiveNavLink_ok.
  - now apply page_animateOnScroll_ok.
  - now apply pass_ok.
Qed.

Lemma run_page_ok links els doc (trace : list PageEvent) (b : Browser) :
  page_ok links els b -> page_ok links els (run_page doc trace b).
Proof.
  unfold run_page. revert b.
  induction trace as [|e trace IH]; intros b H; cbn [List.fold_left]; auto.
  apply IH. now apply page_step_ok.
Qed.

Lemma init_ok year els vp p y secs links year_span body_classes :
  page_ok links els
    (init year (document_loaded els vp p y secs links year_span body_classes)).
Proof.
  unfold init.
  assert (H : page_ok links els
                (setCurrentYear year
                   (document_loaded els vp p y secs links year_span body_classes))).
  { split; [apply loaded_ok |]. split; [now left |]. split; [now left |].
    now left. }
  exact (page_animateOnScroll_ok _ _ _ (page_updateActiveNavLink_ok _ _ _ H)).
Qed.

(** *** The loop runs every due timer *)

Lemma due_in_clear {C} (now0 : Z) (h : option nat) (table : list (Timer C)) :
  (length (due_in now0 (clearTimeout h table)) <= length (due_in now0 table))%nat.
Proof.
  destruct h as [h|]; [| reflexivity]. unfold due_in. cbn.
  induction table as [|x table IH]; cbn; [lia |].
  destruct (negb (Nat.eqb (timer_id x) h)); cbn;
    destruct (timer_due x <=? now0); cbn; lia.
Qed.

Lemma due_in_clear_lt {C} (now0 : Z) (table : list (Timer C)) t :
  In t table -> timer_due t <= now0 ->
  (length (due_in now0 (clearTimeout (Some (timer_id t)) table))
   < length (due_in now0 table))%nat.
Proof.
  intros Hin Hdue. unfold due_in. cbn.
  induction table as [|x table IH]; [contradiction |].
  pose proof (due_in_clear now0 (Some (timer_id t)) table) as Hle.
  unfold due_in in Hle. cbn in Hle. cbn.
  destruct Hin as [-> | Hin].
  - rewrite Nat.eqb_refl. cbn.
    destruct (Z.leb_spec (timer_due t) now0); [cbn; lia | lia].
  - specialize (IH Hin).
    destruct (negb (Nat.eqb (timer_id x) (timer_id t))); cbn;
      destruct (timer_due x <=? now0); cbn; lia.
Qed.

Lemma due_in_later {C} (now0 : Z) (table new : list (Timer C)) :
  Forall (fun t => timer_due t = now0 + 100) new ->
  due_in now0 (table ++ new) = due_in now0 table.
Proof.
  intros H. unfold due_in. rewrite List.filter_app.
  assert (Hnil : List.filter (fun t => timer_due t <=? now0) new = []).
  { induction H as [|x new Hx _ IH]; [reflexivity |]. cbn.
    destruct (Z.leb_spec (timer_due x) now0); [lia | exact IH]. }
  rewrite Hnil. apply app_nil_r.
Qed.

Lemma animateOnScroll_due (s : Stage) :
  clock (animateOnScroll s) = clock s /\
  due_in (clock s) (pending (animateOnScroll s)) = due_in (clock s) (pending s).
Proof.
  unfold animateOnScroll.
  destruct (animate_fold (seq 0 (length (elements s))) s (List.seq_NoDup _ _))
    as (Hc & _ & _ & (new & -> & _ & _ & Hdue) & _).
  split; [exact Hc |]. now apply due_in_later.
Qed.

Lemma fire_timer_decreases (x : DueTimer) (b : Browser) :
  next_timer b = Some x ->
  clock (stage_of (fire_timer x b)) = clock (stage_of b) /\
  (due_total (fire_timer x b) < due_total b)%nat.
Proof.
  intros Hx. apply next_timer_some in Hx.
  destruct x as [t | t | t]; destruct Hx as [Hin Hdue]; unfold due_total.
  - cbn [fire_timer scroll_later scroll_func page_animateOnScroll
           page_updateActiveNavLink with_stage with_scroll_closure
           with_nav_links stage_of scroll_closure resize_closure
           closure_later closure_take closure_timers closure_timeout].
    destruct (animateOnScroll_due (stage_of b)) as (Hc & Hp).
    rewrite Hc, Hp. split; [reflexivity |].
    pose proof (due_in_clear (clock (stage_of b)) (closure_timeout (scroll_closure b))
                  (clearTimeout (Some (timer_id t)) (closure_timers (scroll_closure b)))).
    pose proof (due_in_clear_lt (clock (stage_of b))
                  (closure_timers (scroll_closure b)) t Hin Hdue).
    lia.
  - cbn [fire_timer resize_later with_page with_resize_closure stage_of
           scroll_closure resize_closure closure_later closure_take
           closure_timers closure_timeout].
    split; [reflexivity |].
    pose proof (due_in_clear (clock (stage_of b)) (closure_timeout (resize_closure b))
                  (clearTimeout (Some (timer_id t)) (closure_timers (resize_closure b)))).
    pose proof (due_in_clear_lt (clock (stage_of b))
                  (closure_timers (resize_closure b)) t Hin Hdue).
    lia.
  - cbn [fire_timer with_stage stage_of scroll_closure resize_closure
           fire_animation clock pending].
    split; [reflexivity |].
    pose proof (due_in_clear_lt (clock (stage_of b)) (pending (stage_of b)) t
                  Hin Hdue).
    lia.
Qed.

Lemma next_due_of_due_in {C} (now0 : Z) (table : list (Timer C)) :
  due_in now0 table = [] -> next_due now0 table = None.
Proof. unfold next_due, due_in. now intros ->. Qed.

Lemma run_timers_clock (fuel : nat) (b : Browser) :
  clock (stage_of (run_timers fuel b)) = clock (stage_of b).
Proof.
  revert b. induction fuel as [|fuel IH]; intros b; cbn [run_timers]; auto.
  destruct (next_timer b) as [x|] eqn:E; auto.
  rewrite IH. now apply fire_timer_decreases.
Qed.

Lemma run_timers_settles (fuel : nat) (b : Browser) :
  (due_total b <= fuel)%nat -> next_timer (run_timers fuel b) = None.
Proof.
  revert b. induction fuel as [|fuel IH]; intros b Hle; cbn [run_timers].
  - apply next_timer_none. unfold due_total in Hle.
    repeat split; apply next_due_of_due_in, length_zero_iff_nil; lia.
  - destruct (next_timer b) as [x|] eqn:E; [| exact E].
    apply IH. destruct (fire_timer_decreases x b E) as [_ Hlt]. lia.
Qed.

Lemma due_total_le_count (b : Browser) : (due_total b <= timer_count b)%nat.
Proof.
  unfold due_total, timer_count, due_in.
  pose proof (List.filter_length_le
                (fun t : Timer unit => timer_due t <=? clock (stage_of b))
                (closure_timers (scroll_closure b))).
  pose proof (List.filter_length_le
                (fun t : Timer unit => timer_due t <=? clock (stage_of b))
                (closure_timers (resize_closure b))).
  pose proof (List.filter_length_le
                (fun t : Timer nat => timer_due t <=? clock (stage_of b))
                (pending (stage_of b))).
  lia.
Qed.

(** After [pass] nothing is due any more: the fuel was enough. *)
Lemma pass_settles (d : Z) (b : Browser) : next_timer (pass d b) = None.
Proof.
  unfold pass. apply run_timers_settles.
  etransitivity; [apply due_total_le_count |]. reflexivity.
Qed.

Lemma pass_clock (d : Z) (b : Browser) :
  clock (stage_of (pass d b)) = clock (stage_of b) + Z.max 0 d.
Proof. unfold pass. now rewrite run_timers_clock. Qed.

(** *** What the scroll listener leaves *)

Lemma isInViewport_ext vp (a b : Element) :
  rect_top a = rect_top b -> rect_bottom a = rect_bottom b ->
  isInViewport vp a = isInViewport vp b.
Proof. intros H1 H2. unfold isInViewport. now rewrite H1, H2. Qed.

Lemma animateOnScroll_marks_view (s : Stage) :
  forall i element,
    elements (animateOnScroll s) !! i = Some element ->
    isInViewport (viewport (animateOnScroll s)) element = true ->
    is_animated element = true.
Proof.
  unfold animateOnScroll.
  destruct (animate_fold (seq 0 (length (elements s))) s (List.seq_NoDup _ _))
    as (_ & Hv & _ & _ & He).
  intros i element Hi. rewrite Hv. rewrite He in Hi.
  assert (Hsrc : exists original,
             elements s !! i = Some original /\
             element = animated_element (viewport s) original).
  { destruct (elements s !! i) as [original|] eqn:E.
    - exists original. split; [reflexivity |].
      assert (Hin : existsb (Nat.eqb i) (seq 0 (length (elements s))) = true).
      { apply existsb_exists. exists i. split; [| apply Nat.eqb_refl].
        apply in_seq. apply lookup_lt_Some in E. lia. }
      rewrite Hin in Hi. cbn in Hi. congruence.
    - now destruct (existsb _ _). }
  destruct Hsrc as (original & _ & ->). unfold animated_element, starts_animation.
  destruct (isInViewport (viewport s) original) eqn:Hview; cbn [andb].
  - destruct (is_animated original) eqn:Ha; cbn [negb]; intros _;
      [exact Ha | apply is_animated_start].
  - intros H. congruence.
Qed.

Lemma fire_animation_lookup (t : Timer nat) (s : Stage) i element :
  elements (fire_animation t s) !! i = Some element ->
  exists original,
    elements s !! i = Some original /\
    rect_top element = rect_top original /\
    rect_bottom element = rect_bottom original /\
    el_classList element = el_classList original.
Proof.
  unfold fire_animation. cbn [elements].
  destruct (elements s !! timer_callback t) as [target|] eqn:E; [| eauto].
  destruct (Nat.eq_dec (timer_callback t) i) as [<- | Hne].
  - rewrite list_lookup_insert_eq by (now apply lookup_lt_Some in E).
    intros [= <-]. eauto.
  - rewrite list_lookup_insert_ne by exact Hne. eauto.
Qed.

Lemma fire_timer_scroll_done links (x : DueTimer) (b : Browser) :
  next_timer b = Some x ->
  scroll_done links b -> scroll_done links (fire_timer x b).
Proof.
  intros Hx (Hnil & Hnav & Hview). apply next_timer_some in Hx.
  destruct x as [t | t | t].
  - destruct Hx as [Hin _]. rewrite Hnil in Hin. contradiction.
  - split; [exact Hnil |]. split; [exact Hnav | exact Hview].
  - split; [exact Hnil |]. split; [exact Hnav |].
    intros i element Hi Hv. cbn [fire_timer with_stage stage_of] in Hi, Hv.
    apply fire_animation_lookup in Hi as (original & Ho & Htop & Hbot & Hcl).
    unfold is_animated. rewrite Hcl. apply (Hview i original Ho).
    rewrite <- Hv. symmetry. now apply isInViewport_ext.
Qed.

Lemma fire_scroll_timer_done links els (t : Timer unit) (b : Browser) :
  page_ok links els b ->
  closure_timers (scroll_closure b) = [t] ->
  scroll_done links (fire_timer (DueScroll t) b).
Proof.
  intros (_ & Hc & _ & Hn) Ht.
  unfold scroll_done, nav_current, in_view_marked, fire_timer, scroll_later,
    scroll_func, page_animateOnScroll, page_updateActiveNavLink, with_stage,
    with_scroll_closure, with_nav_links, closure_later, closure_take.
  cbn [stage_of scroll_closure nav_link_list window_scrollY section_list
         closure_timers closure_timeout].
  rewrite Ht, clearTimeout_own.
  split; [now destruct (closure_timeout (scroll_closure b)) |].
  split; [now apply nav_marked_from_update |].
  apply animateOnScroll_marks_view.
Qed.

(** While the loop runs, the scroll listener's timer either is still
    pending or has run, and then its work stays done. *)
Lemma run_timers_scroll links els (fuel : nat) (b : Browser) (t : Timer unit) :
  page_ok links els b ->
  scroll_done links b \/ closure_timers (scroll_closure b) = [t] ->
  scroll_done links (run_timers fuel b) \/
  closure_timers (scroll_closure (run_timers fuel b)) = [t].
Proof.
  revert b. induction fuel as [|fuel IH]; intros b Hok H; cbn [run_timers]; auto.
  destruct (next_timer b) as [x|] eqn:E; auto.
  apply IH; [now apply (fire_timer_ok links els x b) |].
  destruct H as [H | H].
  - left. now apply fire_timer_scroll_done.
  - destruct x as [u | u | u].
    + left. apply next_timer_some in E as [Hin _]. rewrite H in Hin.
      destruct Hin as [<- | []]. now apply (fire_scroll_timer_done links els).
    + right. exact H.
    + right. exact H.
Qed.

Lemma run_timers_view (fuel : nat) (b : Browser) :
  window_scrollY (run_timers fuel b) = window_scrollY b /\
  section_list (run_timers fuel b) = section_list b.
Proof.
  revert b. induction fuel as [|fuel IH]; intros b; cbn [run_timers]; auto.
  destruct (next_timer b) as [x|]; auto.
  destruct (IH (fire_timer x b)) as (-> & ->). now destruct x.
Qed.

(** A timer of the scroll listener that is not due stays as it is. *)
Lemma run_timers_scroll_waiting (fuel : nat) (b : Browser) (t : Timer unit) :
  closure_timers (scroll_closure b) = [t] ->
  clock (stage_of b) < timer_due t ->
  scroll_closure (run_timers fuel b) = scroll_closure b.
Proof.
  revert b. induction fuel as [|fuel IH]; intros b Ht Hlt; cbn [run_timers]; auto.
  destruct (next_timer b) as [x|] eqn:E; auto.
  pose proof (fire_timer_decreases x b E) as [Hc _].
  apply next_timer_some in E.
  destruct x as [u | u | u].
  - destruct E as [Hin Hdue]. rewrite Ht in Hin. destruct Hin as [<- | []]. lia.
  - rewrite IH; [reflexivity | exact Ht | now rewrite Hc].
  - rewrite IH; [reflexivity | exact Ht | now rewrite Hc].
Qed.

Lemma page_duration_cons e trace :
  page_duration (e :: trace)
  = match e with EvPass d => Z.max 0 d | _ => 0 end + page_duration trace.
Proof. unfold page_duration. cbn [List.fold_right]. now destruct e. Qed.

Lemma page_duration_nonneg trace : 0 <= page_duration trace.
Proof.
  induction trace as [|e trace IH]; [reflexivity |].
  rewrite page_duration_cons. destruct e; lia.
Qed.

(** While the scroll listener's timer is not due, events other than scrolls
    leave it pending and the scroll offset as it is. *)
Lemma run_page_waiting links els doc (during : list PageEvent) (b : Browser)
  (t : Timer unit) :
  page_ok links els b ->
  closure_timers (scroll_closure b) = [t] ->
  forallb (fun e => negb (is_scroll e)) during = true ->
  clock (stage_of b) + page_duration during < timer_due t ->
  closure_timers (scroll_closure (run_page doc during b)) = [t] /\
  clock (stage_of (run_page doc during b))
  = clock (stage_of b) + page_duration during /\
  window_scrollY (run_page doc during b) = window_scrollY b /\
  page_ok links els (run_page doc during b).
Proof.
  revert b. induction during as [|e during IH]; intros b Hok Ht Hq Hlt.
  - cbn [run_page List.fold_left]. unfold page_duration. cbn [List.fold_right].
    split; [exact Ht |]. split; [lia |]. split; [reflexivity | exact Hok].
  - cbn [forallb] in Hq. apply andb_prop in Hq as [He Hq].
    pose proof (page_duration_nonneg during) as Hnn.
    change (run_page doc (e :: during) b)
      with (run_page doc during (page_step doc b e)).
    assert (Hstep : closure_timers (scroll_closure (page_step doc b e)) = [t] /\
                    clock (stage_of (page_step doc b e))
                    = clock (stage_of b)
                      + match e with EvPass d => Z.max 0 d | _ => 0 end /\
                    window_scrollY (page_step doc b e) = window_scrollY b).
    { destruct e; try discriminate; cbn [page_step].
      - split; [exact Ht |]. split; [cbn; lia | reflexivity].
      - split; [exact Ht |]. split; [cbn; lia | reflexivity].
      - split; [exact Ht |]. split; [cbn; lia | reflexivity].
      - split; [exact Ht |]. split; [| reflexivity].
        cbn [page_animateOnScroll with_stage stage_of].
        destruct (animateOnScroll_due (stage_of b)) as [-> _]. lia.
      - rewrite pass_clock. unfold pass.
        rewrite page_duration_cons in Hlt.
        rewrite (run_timers_scroll_waiting _ _ t);
          [| exact Ht | cbn [with_stage stage_of advance_clock clock]; lia].
        destruct (run_timers_view
                    (timer_count b)
                    (with_stage (advance_clock d (stage_of b)) b)) as (-> & _).
        cbn. auto. }
    destruct Hstep as (Ht' & Hc' & Hy').
    destruct (IH (page_step doc b e)) as (H1 & H2 & H3 & H4);
      [now apply page_step_ok | exact Ht' | exact Hq | |].
    + rewrite Hc'. rewrite ?page_duration_cons in Hlt. lia.
    + rewrite H1, H2, H3, Hc', Hy', page_duration_cons.
      split; [reflexivity |]. split; [lia |]. split; [reflexivity | exact H4].
Qed.

Lemma map_href_update y secs (l : list NavLink) :
  List.map href (updateActiveNavLink y secs l) = List.map href l.
Proof.
  unfold updateActiveNavLink. rewrite List.map_map. now apply List.map_ext.
Qed.

Lemma run_timers_in_step (fuel : nat) (b : Browser) :
  in_step (page_of b) -> in_step (page_of (run_timers fuel b)).
Proof.
  revert b. induction fuel as [|fuel IH]; intros b H; cbn [run_timers]; auto.
  destruct (next_timer b) as [x|]; auto.
  apply IH. destruct x as [t | t | t]; try exact H.
  cbn. unfold resize_handler.
  destruct (768 <? innerWidth (page_of b)); [apply close_in_step | exact H].
Qed.

Lemma page_step_in_step doc (b : Browser) (e : PageEvent) :
  in_step (page_of b) -> in_step (page_of (page_step doc b e)).
Proof.
  intros H. destruct e; cbn [page_step]; try exact H.
  - cbn. now apply perform_in_step.
  - unfold pass. now apply run_timers_in_step.
Qed.

Lemma run_page_in_step doc (trace : list PageEvent) (b : Browser) :
  in_step (page_of b) -> in_step (page_of (run_page doc trace b)).
Proof.
  unfold run_page. revert b.
  induction trace as [|e trace IH]; intros b H; cbn [List.fold_left]; auto.
  apply IH. now apply page_step_in_step.
Qed.

(** X11. The first pass of [init]. When [init] returns, before any event:
    the nav-links are marked for the scroll offset the page was loaded at;
    every decorative element in the viewport carries "animated"; the
    pending timers are the reveal timers of the elements just started, each
    due in 100 ms; the footer element, if the document has one, shows the
    year, and the body carries "loaded"; the menu, the scroll offset and the
    sections are as loaded and neither debounced listener has a timer
    pending. *)
Theorem init_first_pass
  (year : Z) (els : list Element) (vp : Viewport) (p : Page) (y : Z)
  (secs : list SectionEl) (links : list NavLink) (year_span : option string)
  (body_classes : list string) :
  let b := init year (document_loaded els vp p y secs links year_span body_classes) in
  nav_link_list b = updateActiveNavLink y secs links /\
  in_view_marked b /\
  Forall (fun t => timer_due t = 100) (pending (stage_of b)) /\
  List.map timer_callback (pending (stage_of b)) = animations (stage_of b) /\
  year_text b
  = match year_span with Some _ => Some (year_string year) | None => None end /\
  DOMTokenList.contains (body_classList b) "loaded" = true /\
  page_of b = p /\ window_scrollY b = y /\ section_list b = secs /\
  scroll_closure b = idle_closure /\ resize_closure b = idle_closure.
Proof.
  cbv zeta. unfold init, document_loaded.
  cbn [mark_loaded page_animateOnScroll page_updateActiveNavLink setCurrentYear
         with_stage with_nav_links stage_of scroll_closure resize_closure page_of
         window_scrollY section_list nav_link_list year_text body_classList].
  split; [reflexivity |]. split.
  { intros i element.
    exact (animateOnScroll_marks_view (loaded els vp) i element). }
  unfold animateOnScroll.
  destruct (animate_fold (seq 0 (length (elements (loaded els vp))))
              (loaded els vp) (List.seq_NoDup _ _))
    as (_ & _ & Ha & (new & Hp & Hcb & _ & Hdue) & _).
  rewrite Hp, Ha. cbn [loaded pending animations clock] in *.
  split; [exact Hdue |]. split; [exact Hcb |].
  split; [reflexivity |]. split; [apply contains_add |].
  repeat split.
Qed.

(** X12. Page-wide invariants. From [init] on, through any sequence of
    scroll and resize events, menu and anchor listeners, direct calls of
    the exposed functions and passing time: no element has its reveal timer
    set twice, and each one started still has its timer or is fully
    revealed; each debounced listener has at most one timer pending, however
    many events arrive; the nav-links keep their hrefs and order; and a menu
    that was open or closed in step when the page loaded still is. *)
Theorem page_invariants
  (doc : Document) (year : Z) (els : list Element) (vp : Viewport) (p : Page)
  (y : Z) (secs : list SectionEl) (links : list NavLink)
  (year_span : option string) (body_classes : list string)
  (trace : list PageEvent) :
  let b :=
    run_page doc trace
      (init year (document_loaded els vp p y secs links year_span body_classes)) in
  NoDup (animations (stage_of b)) /\
  none_left_hidden (stage_of b) /\
  (length (closure_timers (scroll_closure b)) <= 1)%nat /\
  (length (closure_timers (resize_closure b)) <= 1)%nat /\
  List.map href (nav_link_list b) = List.map href links /\
  (in_step p -> in_step (page_of b)).
Proof.
  cbv zeta.
  pose proof (run_page_ok links els doc trace _
                (init_ok year els vp p y secs links year_span body_classes))
    as (((Hnd & _) & _ & Hhid & _) & Hc1 & Hc2 & Hn).
  split; [exact Hnd |]. split; [exact Hhid |].
  split; [destruct Hc1 as [-> | (t & -> & _)]; cbn; lia |].
  split; [destruct Hc2 as [-> | (t & -> & _)]; cbn; lia |].
  split.
  - destruct Hn as [-> | (y' & secs' & ->)]; [reflexivity | apply map_href_update].
  - intros Hp. apply run_page_in_step. exact Hp.
Qed.

(** X13. The scroll listener settles. After any history since [init], a
    scroll to offset [y], followed by events that are no scroll (menu and
    anchor listeners, resizes, passing time) over less than 100 ms and then
    by the step that completes 100 ms: the scroll listener has run, no timer
    of it is pending, the nav-links are the original ones marked for offset
    [y] and the sections as they now are, whatever was marked before, and
    every decorative element in the viewport carries "animated". *)
Theorem scroll_settles
  (doc : Document) (year : Z) (els : list Element) (vp : Viewport) (p : Page)
  (y0 : Z) (secs : list SectionEl) (links : list NavLink)
  (year_span : option string) (body_classes : list string)
  (before during : list PageEvent) (y : Z) (rects : nat -> float * float)
  (d : Z) :
  forallb (fun e => negb (is_scroll e)) during = true ->
  page_duration during < 100 ->
  100 <= page_duration during + Z.max 0 d ->
  let settled :=
    run_page doc (before ++ [EvScroll y rects] ++ during ++ [EvPass d])
      (init year (document_loaded els vp p y0 secs links year_span body_classes)) in
  window_scrollY settled = y /\
  nav_link_list settled = updateActiveNavLink y (section_list settled) links /\
  in_view_marked settled /\
  closure_timers (scroll_closure settled) = [].
Proof.
  intros Hq Hshort Hlong. cbv zeta. unfold run_page.
  rewrite !fold_left_app. cbn [List.fold_left].
  set (b1 := List.fold_left (page_step doc) before _).
  assert (H1 : page_ok links els b1) by apply run_page_ok, init_ok.
  set (b2 := page_step doc b1 (EvScroll y rects)).
  assert (H2 : page_ok links els b2) by now apply page_step_ok.
  set (t := {| timer_id := fresh_handle (stage_of b1);
               timer_due := clock (stage_of b1) + 100;
               timer_callback := tt |}).
  assert (Ht2 : closure_timers (scroll_closure b2) = [t]).
  { destruct H1 as (_ & Hc & _). unfold b2. cbn [page_step].
    unfold scroll_listener, scroll_to.
    cbn [with_stage with_scroll_closure scroll_closure stage_of relayout clock
           fresh_handle].
    now rewrite closure_call_timers. }
  destruct (run_page_waiting links els doc during b2 t H2 Ht2 Hq)
    as (Ht3 & Hc3 & Hy3 & H3); [cbn; lia |].
  unfold run_page in *.
  set (b3 := List.fold_left (page_step doc) during b2) in *.
  change (clock (stage_of b2)) with (clock (stage_of b1)) in Hc3.
  change (window_scrollY b2) with y in Hy3.
  cbn [page_step].
  set (b3' := with_stage (advance_clock d (stage_of b3)) b3).
  assert (H3' : page_ok links els b3').
  { destruct H3 as (Hs & Hc1 & Hc2 & Hn).
    split; [| split; [exact Hc1 | split; [exact Hc2 | exact Hn]]].
    now apply advance_clock_ok. }
  pose proof (pass_settles d b3) as Hsettled.
  pose proof (pass_clock d b3) as Hclock.
  unfold pass in *. fold b3' in Hsettled, Hclock |- *.
  destruct (run_timers_view (timer_count b3) b3') as (Hy & Hsecs).
  destruct (run_timers_scroll links els (timer_count b3) b3' t H3'
              (or_intror Ht3)) as [(Hnil & Hnav & Hview) | Hstill].
  - unfold nav_current in Hnav. rewrite Hy in Hnav |- *. cbn in Hnav |- *.
    rewrite Hy3 in Hnav |- *. auto.
  - exfalso. apply next_timer_none in Hsettled as (Hnone & _).
    rewrite Hstill in Hnone. apply next_due_none in Hnone.
    rewrite List.Forall_forall in Hnone.
    specialize (Hnone t (or_introl eq_refl)). cbn [t timer_due] in Hnone. lia.
Qed.

Lemma scroll_settles_witness :
  forallb (fun e => negb (is_scroll e)) visit_during = true /\
  page_duration visit_during < 100 /\
  100 <= page_duration visit_during + Z.max 0 1 /\
  List.map is_active
    (nav_link_list
       (run_page example_document
          (visit_start ++ [EvScroll 700 scrolled] ++ visit_during ++ [EvPass 1])
          (init 2026 portfolio)))
  = [false; true; false] /\
  nav_link_list
    (run_page example_document
       (visit_start ++ [EvScroll 700 scrolled] ++ visit_during ++ [EvPass 1])
       (init 2026 portfolio))
  = updateActiveNavLink 700
      (section_list
         (run_page example_document
            (visit_start ++ [EvScroll 700 scrolled] ++ visit_during ++ [EvPass 1])
            (init 2026 portfolio)))
      [home_link; about_link; contact_link].
Proof.
  split; [reflexivity |]. split; [vm_compute; reflexivity |].
  split; [vm_compute; discriminate |]. split; [reflexivity |].
  destruct (scroll_settles example_document 2026 [first_card; second_card]
              desktop closed_page 0 [hero_block; about_block; contact_block]
              [home_link; about_link; contact_link] (Some "2020") []
              visit_start visit_during 700 scrolled 1)
    as (_ & Hnav & _).
  - reflexivity.
  - vm_compute. reflexivity.
  - vm_compute. discriminate.
  - exact Hnav.
Defined.

Lemma page_invariants_witness :
  in_step closed_page /\
  in_step
    (page_of
       (run_page example_document
          (visit_start ++ [EvScroll 700 scrolled] ++ visit_during ++ [EvPass 1])
          (init 2026 portfolio))) /\
  animations
    (stage_of
       (run_page example_document
          (visit_start ++ [EvScroll 700 scrolled] ++ visit_during ++ [EvPass 1])
          (init 2026 portfolio)))
  = [0; 1]%nat.
Proof.
  assert (H : in_step closed_page) by (right; repeat split).
  split; [exact H |]. split; [| reflexivity].
  destruct (page_invariants example_document 2026 [first_card; second_card]
              desktop closed_page 0 [hero_block; about_block; contact_block]
              [home_link; about_link; contact_link] (Some "2020") []
              (visit_start ++ [EvScroll 700 scrolled] ++ visit_during ++ [EvPass 1]))
    as (_ & _ & _ & _ & _ & Hstep).
  exact (Hstep H).
Defined.
